(** * Hendrix-Systems-Lab: the effects engine of [chain_hendrix.py],
      [hendrix_lab.py] and [echo_ir.py], embedded in Rocq.

    Samples are modelled as real numbers: [np.sin], [np.tanh] and [np.exp]
    are the real functions, and floating-point rounding is outside the model.
    Array indexing, slicing, the loops and the exceptions of the Python code
    are modelled as written. *)

From Stdlib Require Import String Ascii Decimal DecimalString DecimalNat.
From Stdlib Require Import Reals Lra Lia ZArith Bool List.
Import ListNotations.
Open Scope R_scope.

(** ** Python and NumPy primitives *)

Module Py.

(** The exceptions the modelled code can raise. *)
Inductive exn : Type :=
| ValueError (msg : string)
| IndexError
| ZeroDivisionError
| OverflowError
| FileNotFoundError.

Inductive result (A : Type) : Type :=
| Ok (a : A)
| Raise (e : exn).
Arguments Ok {A} a.
Arguments Raise {A} e.

Definition bind {A B : Type} (c : result A) (k : A -> result B) : result B :=
  match c with
  | Ok a => k a
  | Raise e => Raise e
  end.

Notation "x <- c ;; k" := (bind c (fun x => k))
  (at level 61, c at next level, right associativity).

(** [for n in ns: s = body(s, n)], stopping at the first exception. *)
Fixpoint for_each {S N : Type} (body : S -> N -> result S) (ns : list N) (s : S)
  : result S :=
  match ns with
  | [] => Ok s
  | n :: rest => s' <- body s n ;; for_each body rest s'
  end.

(** [range(a, b)] over the integers. *)
Definition range (a b : Z) : list Z :=
  map (fun k => (a + Z.of_nat k)%Z) (seq 0 (Z.to_nat (b - a))).

(** [range(0, n, step)] for a positive step. *)
Definition range_step (n step : nat) : list nat :=
  map (fun k => (k * step)%nat) (seq 0 ((n + step - 1) / step)).

(** [int(r)] on a float: truncation toward zero. *)
Definition int (r : R) : Z :=
  if Rle_dec 0 r then Int_part r else (- Int_part (- r))%Z.

(** A one-dimensional array of samples. *)
Definition array : Type := list R.

Definition zeros_like (x : array) : array := repeat 0 (length x).

(** Position named by the index [i] in an array of [len] elements: negative
    indices count from the end, anything else out of range raises. *)
Definition index (len : nat) (i : Z) : result nat :=
  if ((0 <=? i) && (i <? Z.of_nat len))%Z then Ok (Z.to_nat i)
  else if ((- Z.of_nat len <=? i) && (i <? 0))%Z then Ok (Z.to_nat (i + Z.of_nat len))
  else Raise IndexError.

Fixpoint set_nth (a : array) (k : nat) (v : R) : array :=
  match a, k with
  | [], _ => []
  | _ :: t, O => v :: t
  | h :: t, S k' => h :: set_nth t k' v
  end.

(** [a[i]] *)
Definition get (a : array) (i : Z) : result R :=
  k <- index (length a) i ;; Ok (nth k a 0).

(** [a[i] = v] *)
Definition set (a : array) (i : Z) (v : R) : result array :=
  k <- index (length a) i ;; Ok (set_nth a k v).

(** [a[i:i+n]] for [0 <= i]: slices never raise, they are cut at the end. *)
Definition slice (a : array) (i n : nat) : array := firstn n (skipn i a).

(** [a[i:i+n] = v]: [v] must be as long as the slice, or hold one element,
    which is then broadcast; any other shape raises. *)
Definition set_slice (a : array) (i n : nat) (v : array) : result array :=
  let m := length (slice a i n) in
  if (length v =? m)%nat then Ok (firstn i a ++ v ++ skipn (i + m) a)
  else if (length v =? 1)%nat
       then Ok (firstn i a ++ repeat (nth 0 v 0) m ++ skipn (i + m) a)
       else Raise (ValueError "could not broadcast input array").

(** [a[::step]] for a step that is not negative; a zero step raises. *)
Definition stride (a : array) (step : nat) : result array :=
  match step with
  | O => Raise (ValueError "slice step cannot be zero")
  | _ => Ok (map (fun i => nth i a 0) (range_step (length a) step))
  end.

(** [np.round(r)]: to the nearest integer, halves to the even one. *)
Definition round (r : R) : R :=
  let f := Int_part r in
  if Rlt_dec (r - IZR f) 0.5 then IZR f
  else if Rlt_dec 0.5 (r - IZR f) then IZR (f + 1)
  else if Z.even f then IZR f else IZR (f + 1).

(** [np.max(a)]: raises on an empty array. *)
Definition max (a : array) : result R :=
  match a with
  | [] => Raise (ValueError "zero-size array to reduction operation maximum which has no identity")
  | h :: t => Ok (fold_left Rmax t h)
  end.

(** [np.clip(v, lo, hi)] on one sample. *)
Definition clip (lo hi v : R) : R := Rmin (Rmax v lo) hi.

(** [np.cumsum(a)] *)
Fixpoint cumsum_from (acc : R) (a : array) : array :=
  match a with
  | [] => []
  | h :: t => (acc + h) :: cumsum_from (acc + h) t
  end.

Definition cumsum (a : array) : array := cumsum_from 0 a.

(** [np.arange(n)] as floats. *)
Definition arange (n : nat) : array := map INR (seq 0 n).

(** [np.linspace(start, stop, num, endpoint=False)]: [num] samples spaced by
    [(stop - start)/num]; a negative [num] raises. *)
Definition linspace (start stop : R) (num : Z) : result array :=
  if (num <? 0)%Z
  then Raise (ValueError "Number of samples must be non-negative")
  else Ok (map (fun k => INR k * ((stop - start) / IZR num) + start)
               (seq 0 (Z.to_nat num))).

(** Elementwise binary operation on two arrays of the same length. *)
Fixpoint map2 (f : R -> R -> R) (a b : array) : array :=
  match a, b with
  | x :: a', y :: b' => f x y :: map2 f a' b'
  | _, _ => []
  end.

(** [a / b] on two Python floats: a zero divisor raises. *)
Definition truediv (a b : R) : result R :=
  if Req_dec_T b 0 then Raise ZeroDivisionError else Ok (a / b).

(** The largest finite float, [sys.float_info.max]. *)
Definition float_max : R := (2 - / 2 ^ 52) * 2 ^ 1023.

(** [a ** b] on two Python numbers, one of them a float, with a positive
    base: a power beyond the largest float raises. *)
Definition power (a b : R) : result R :=
  if Rle_dec (Rpower a b) float_max then Ok (Rpower a b)
  else Raise OverflowError.

End Py.

Import Py.

(** The global sample rate [SR] of all three scripts. *)
Definition SR : R := 48000.

(** ** [echo_ir.py] *)

Module EchoIr.

(** One iteration of the loop of [tape_echo]; the state is [(y, buf)]. *)
Definition tape_echo_step (d : Z) (feedback hf_loss : R)
    (st : array * array) (n : Z) : result (array * array) :=
  let '(y, buf) := st in
  b <- get buf (n - d) ;;
  let prev := hf_loss * b in
  yn <- get y n ;;
  y' <- set y n (yn + feedback * prev) ;;
  yn' <- get y' n ;;
  buf' <- set buf n yn' ;;
  Ok (y', buf').

(** The delay in samples: [d = int(SR*delay_ms/1000.0)]. *)
Definition delay_samples (delay_ms : R) : Z := int (SR * delay_ms / 1000).

(** [tape_echo(x, delay_ms, feedback, hf_loss)], which returns [y]
    without normalising it. *)
Definition tape_echo (x : array) (delay_ms feedback hf_loss : R) : result array :=
  let d := delay_samples delay_ms in
  st <- for_each (tape_echo_step d feedback hf_loss)
          (range d (Z.of_nat (length x))) (x, zeros_like x) ;;
  Ok (fst st).

(** The input built by [main]: [x = np.zeros(N); x[0] = 1.0]. *)
Definition unit_impulse (N : nat) : result array :=
  set (repeat 0 N) 0 1.

(** What [main] plots: [N = int(SR*args.dur)], the unit impulse of [N]
    samples, and [y = tape_echo(x, args.delay, args.feedback, args.hf)].
    [np.zeros(N)] raises on a negative [N]. *)
Definition impulse_response (delay feedback hf dur : R) : result array :=
  let N := int (SR * dur) in
  if (N <? 0)%Z then Raise (ValueError "negative dimensions are not allowed")
  else
    x <- unit_impulse (Z.to_nat N) ;;
    tape_echo x delay feedback hf.

End EchoIr.

(** ** Files written and effects applied, as a log *)

Module Io.

(** A file is named by its directory and its name there, which is what
    [os.path.join] and [os.path.dirname] need. *)
Record path : Type := { dirname : string; basename : string }.

Definition join (dir name : string) : path :=
  {| dirname := dir; basename := name |}.

(** What a run does that can be seen from outside: [os.makedirs(dir)],
    [sf.write(p, data, ...)] and the call [EFFECTS[ef](current)]. *)
Inductive event : Type :=
| Makedirs (dir : string)
| SfWrite (p : path) (data : array)
| Apply (ef : string).

(** The files a log shows written by [sf.write], oldest first. *)
Definition written (log : list event) : list path :=
  flat_map (fun e => match e with SfWrite p _ => [p] | _ => [] end) log.

(** The names of the effects a log shows applied, oldest first. *)
Definition applied (log : list event) : list string :=
  flat_map (fun e => match e with Apply ef => [ef] | _ => [] end) log.

(** A computation that appends to the log and returns or raises. *)
Definition io (A : Type) : Type := list event -> list event * result A.

Definition ret {A : Type} (a : A) : io A := fun log => (log, Ok a).

Definition io_bind {A B : Type} (c : io A) (k : A -> io B) : io B :=
  fun log =>
    match c log with
    | (log', Ok a) => k a log'
    | (log', Raise e) => (log', Raise e)
    end.

Definition emit (e : event) : io unit := fun log => (log ++ [e], Ok tt).

Definition lift {A : Type} (r : result A) : io A := fun log => (log, r).

(** [os.makedirs(dir, exist_ok=True)]: the empty name, which is what
    [os.path.dirname] returns for a file name without a directory part,
    raises. *)
Definition makedirs (dir : string) : io unit :=
  match dir with
  | EmptyString => lift (Raise FileNotFoundError)
  | _ => emit (Makedirs dir)
  end.

Notation "x <~ c ;; k" := (io_bind c (fun x => k))
  (at level 61, c at next level, right associativity).
Notation "c ;;; k" := (io_bind c (fun _ => k))
  (at level 61, right associativity).

End Io.

Import Io.

(** ** [chain_hendrix.py] *)

Module ChainHendrix.

(** [norm(x)]. The cast [.astype(np.float32)] that ends it is a rounding,
    and like every rounding it is outside the model: the quotients below
    are the samples before the cast. *)
Definition norm (x : array) : result array :=
  mx <- max (map Rabs x) ;;
  let m := mx + 1e-12 in
  Ok (map (fun s => s / m) x).

(** [guitarish_note(freq, dur)], the test tone of [main] when no input file
    is given. *)
Definition guitarish_note (freq dur : R) : result array :=
  t <- linspace 0 dur (int (SR * dur)) ;;
  let x := map (fun t => sin (2 * PI * freq * t)
                         + 0.25 * sin (2 * PI * 2 * freq * t)
                         + 0.15 * sin (2 * PI * 3 * freq * t)) t in
  let env := map (fun t => 1 - exp (- t * 50)) t in
  norm (map2 (fun a e => a * e * 0.6) x env).

(** The loop of [lp_pre_emphasis]: [y[n] = alpha*y[n-1] + (1-alpha)*x[n]]
    for [n >= 1], [prev] being [y[n-1]]. *)
Fixpoint lp_loop (alpha prev : R) (xs : array) : array :=
  match xs with
  | [] => []
  | xn :: rest =>
      let yn := alpha * prev + (1 - alpha) * xn in
      yn :: lp_loop alpha yn rest
  end.

(** [lp_pre_emphasis(x, fc)]: the two divisions that give [alpha] come
    first, and the first one raises for [fc = 0]. *)
Definition lp_pre_emphasis (x : array) (fc : R) : result array :=
  rc <- truediv 1 (2 * PI * fc) ;;
  e <- truediv (- 1) (SR * rc) ;;
  let alpha := exp e in
  Ok match x with
     | [] => []
     | x0 :: rest => x0 :: lp_loop alpha x0 rest
     end.

Definition fuzz (x : array) (drive hard : R) : result array :=
  y <- lp_pre_emphasis x 3500 ;;
  let soft := map (fun v => tanh (drive * v)) y in
  let hardc := map (fun v => clip (-0.6) 0.6 (drive * v)) y in
  norm (map2 (fun s h => (1 - hard) * s + hard * h) soft hardc).

(** The loop of the inner [allpass] of [univibe]; [xm1] and [ym1] are the
    previous input and output sample. *)
Fixpoint allpass_loop (a xm1 ym1 : R) (seg : array) : array :=
  match seg with
  | [] => []
  | s :: rest =>
      let o := - a * s + xm1 + a * ym1 in
      o :: allpass_loop a s o rest
  end.

(** The coefficient [a] that [allpass] derives from [fc]. *)
Definition allpass_coeff (fc : R) : R :=
  let w0 := 2 * PI * fc / SR in
  (1 - sin w0) / (1 + sin w0).

(** The array [out] of [allpass(seg, fc, d)] when its loop ends: every call
    starts from [xm1 = 0.0; ym1 = 0.0]. *)
Definition allpass_out (seg : array) (fc : R) : array :=
  let a := allpass_coeff fc in
  allpass_loop a 0 0 seg.

(** [allpass(seg, fc, d)], which returns [(1-d)*seg + d*out]. *)
Definition allpass (seg : array) (fc d : R) : array :=
  let out := allpass_out seg fc in
  map2 (fun s o => (1 - d) * s + d * o) seg out.

(** Block size of [univibe]. *)
Definition univibe_blk : nat := 128.

(** The time axis [t = np.arange(len(x))/SR]. *)
Definition time_axis (n : nat) : array := map (fun k => k / SR) (arange n).

Definition univibe_lfo (n : nat) (rate_hz : R) : array :=
  map (fun t => 0.6 + 0.4 * sin (2 * PI * rate_hz * t)) (time_axis n).

(** The frequency of the block that starts at [i]: [base*(0.5 + lfo[i])]. *)
Definition univibe_fc (lfo : array) (base : R) (i : nat) : R :=
  base * (0.5 + nth i lfo 0).

(** One pass of the loop over [bases]: the inner loop over the blocks of
    [y], writing [z], which becomes the next [y]. *)
Definition univibe_stage (lfo : array) (depth : R) (y : array) (base : R)
  : result array :=
  for_each
    (fun z i =>
       set_slice z i univibe_blk
         (allpass (slice y i univibe_blk) (univibe_fc lfo base i) depth))
    (range_step (length y) univibe_blk) (zeros_like y).

Definition univibe (x : array) (rate_hz depth : R) : result array :=
  let lfo := univibe_lfo (length x) rate_hz in
  let bases := [220; 440; 700; 1100] in
  y <- for_each (univibe_stage lfo depth) bases x ;;
  let y := map2 Rmult y
             (map (fun t => 0.9 * (1 + 0.15 * sin (2 * PI * (rate_hz / 2) * t)))
                  (time_axis (length x))) in
  norm y.

Definition octavia (x : array) : result array :=
  let rect := map Rabs x in
  let y := map (fun r => tanh (6 * (r - 0.1))) rect in
  norm y.

Definition leslie (x : array) (rate_hz dev_hz am_depth : R) : result array :=
  let t := time_axis (length x) in
  let am := map (fun t => 1 + am_depth * sin (2 * PI * rate_hz * t)) t in
  let fm := map (fun t => dev_hz * sin (2 * PI * rate_hz * t)) t in
  let phase := map (fun c => 2 * PI * c / SR) (cumsum fm) in
  let fc := 330 in
  let carrier := map2 (fun t p => sin (2 * PI * fc * t + p)) t phase in
  let y := map2 Rmult am carrier in
  let y := map2 (fun w d => 0.6 * w + 0.4 * d) y x in
  norm y.

(** [tape_echo]: the loop is the one of [echo_ir.py], then [norm]. *)
Definition tape_echo (x : array) (delay_ms feedback hf_loss : R) : result array :=
  y <- EchoIr.tape_echo x delay_ms feedback hf_loss ;;
  norm y.

Section Scipy.

(** [scipy.signal] is not part of the repository: the type of a filter in
    second-order sections, the sections [butter] computes for a band it
    accepts and [sosfilt] are parameters of the model. *)
Variable sos : Type.
Variable butter_design : nat -> R -> R -> sos.
Variable sosfilt : sos -> array -> array.

(** [butter(N, [lo, hi], btype='band', output='sos')]: the band edges are
    fractions of the Nyquist frequency, and [butter] raises unless they are
    positive, in order and below 1, that is [0 < lo < hi < 1]. *)
Definition butter (N : nat) (lo hi : R) : result sos :=
  if Rlt_dec 0 lo then
    if Rlt_dec 0 hi then
      if Rlt_dec lo hi then
        if Rlt_dec hi 1 then Ok (butter_design N lo hi)
        else Raise (ValueError "Digital filter critical frequencies must be 0 < Wn < 1")
      else Raise (ValueError "Wn[0] must be less than Wn[1]")
    else Raise (ValueError "filter critical frequencies must be greater than 0")
  else Raise (ValueError "filter critical frequencies must be greater than 0").

(** [bandpass_sos(fc, q)]: [fc/q] raises for [q = 0]. *)
Definition bandpass_sos (fc q : R) : result sos :=
  bw <- truediv fc q ;;
  let low := Rmax 30 (fc - bw / 2) in
  let high := Rmin (SR / 2 - 100) (fc + bw / 2) in
  butter 2 (low / (SR / 2)) (high / (SR / 2)).

(** Block size of [wah_auto]. *)
Definition wah_blk : nat := 256.

Definition wah_centers (n : nat) (f_lo f_hi rate_hz : R) : array :=
  map (fun t => f_lo + 0.5 * (1 + sin (2 * PI * rate_hz * t)) * (f_hi - f_lo))
      (time_axis n).

(** One iteration of the loop of [wah_auto], on the state [y]: the filter
    is designed at [centers[i]], then the block is filtered and stored. *)
Definition wah_step (centers : array) (q : R) (x : array)
    (y : array) (i : nat) : result array :=
  let fc := nth i centers 0 in
  flt <- bandpass_sos fc q ;;
  set_slice y i wah_blk (sosfilt flt (slice x i wah_blk)).

(** The loop of [wah_auto], before [norm]. *)
Definition wah_loop (x : array) (f_lo f_hi rate_hz q : R) : result array :=
  let centers := wah_centers (length x) f_lo f_hi rate_hz in
  for_each (wah_step centers q x) (range_step (length x) wah_blk)
           (zeros_like x).

Definition wah_auto (x : array) (f_lo f_hi rate_hz q : R) : result array :=
  y <- wah_loop x f_lo f_hi rate_hz q ;;
  norm y.

(** The registry [EFFECTS]: every effect with its default parameters. *)
Definition EFFECTS : list (string * (array -> result array)) :=
  [ ("fuzz"%string,    fun x => fuzz x 8 0.45);
    ("wah"%string,     fun x => wah_auto x 350 2000 1.2 2.5);
    ("univibe"%string, fun x => univibe x 4 0.9);
    ("octavia"%string, fun x => octavia x);
    ("leslie"%string,  fun x => leslie x 5.5 3 0.5);
    ("tape"%string,    fun x => tape_echo x 120 0.6 0.75) ].

(** [EFFECTS[ef]], [None] when [ef not in EFFECTS]. *)
Fixpoint lookup (ef : string) (reg : list (string * (array -> result array)))
  : option (array -> result array) :=
  match reg with
  | [] => None
  | (name, f) :: rest => if String.eqb ef name then Some f else lookup ef rest
  end.

(** [save_wav(path, x)] *)
Definition save_wav (p : path) (x : array) : io unit :=
  makedirs (dirname p) ;;;
  data <~ lift (norm x) ;;
  emit (SfWrite p data).

(** The command line after [parse_args]: [--chain], [--out] and [--stems]. *)
Record args : Type :=
  { chain : list string; out : path; stems : option string }.

(** [if args.stems:] holds for a folder name that is not empty. *)
Definition stems_folder (a : args) : option string :=
  match stems a with
  | Some EmptyString => None
  | other => other
  end.

(** [f"{i:02d}"] *)
Definition two_digits (i : nat) : string :=
  let s := NilEmpty.string_of_uint (Nat.to_uint i) in
  if (i <? 10)%nat then String "0" s else s.

(** [f"{i:02d}_{ef}.wav"] *)
Definition stem_name (i : nat) (ef : string) : string :=
  (two_digits i ++ "_" ++ ef ++ ".wav")%string.

(** The loop [for i, ef in enumerate(args.chain, start=1)] of [main]. *)
Fixpoint chain_loop (a : args) (efs : list string) (i : nat) (current : array)
  : io array :=
  match efs with
  | [] => ret current
  | ef :: rest =>
      match lookup ef EFFECTS with
      | None => lift (Raise (ValueError ("Unknown effect: " ++ ef)))
      | Some f =>
          emit (Apply ef) ;;;
          current' <~ lift (f current) ;;
          match stems_folder a with
          | Some dir => save_wav (join dir (stem_name i ef)) current'
          | None => ret tt
          end ;;;
          chain_loop a rest (S i) current'
      end
  end.

(** The first [if args.stems:] of [main], which saves the dry signal. *)
Definition save_clean (a : args) (current : array) : io unit :=
  match stems_folder a with
  | Some dir =>
      makedirs dir ;;; save_wav (join dir "00_clean.wav") current
  | None => ret tt
  end.

(** [main], from the dry signal [x] that [load_wav] or [guitarish_note]
    returned. *)
Definition main (a : args) (x : array) : io unit :=
  let current := x in
  save_clean a current ;;;
  current <~ chain_loop a (chain a) 1 current ;;
  save_wav (out a) current.

End Scipy.

End ChainHendrix.

(** ** [hendrix_lab.py] *)

Module HendrixLab.

Definition norm (x : array) : result array :=
  mx <- max (map Rabs x) ;;
  Ok (map (fun s => s / (mx + 1e-12)) x).

(** [compressor_soft(x, drive_db, knee)]: the gain [10**(drive_db/20)] is
    a power of two Python floats. *)
Definition compressor_soft (x : array) (drive_db : R) (knee : string)
  : result array :=
  g <- power 10 (drive_db / 20) ;;
  let y := map (fun v => g * v) x in
  let y := if String.eqb knee "soft" then map tanh y else y in
  norm y.

Definition hard_clip (x : array) (th : R) : result array :=
  norm (map (clip (- th) th) x).

Definition fuzz_face_like (x : array) : result array :=
  let fc := 3500 in
  let rc := 1 / (2 * PI * fc) in
  let alpha := exp (- 1 / (SR * rc)) in
  let y := match x with
           | [] => []
           | x0 :: rest => x0 :: ChainHendrix.lp_loop alpha x0 rest
           end in
  let gain := 8 in
  let soft := map (fun v => tanh (gain * v)) y in
  let hard := map (fun v => clip (-0.6) 0.6 (gain * v)) y in
  norm (map2 (fun s h => 0.55 * s + 0.45 * h) soft hard).

(** [bitcrush(x, bits, downsample)]. For [bits = 1] the scale [q/2 - 1] is
    zero and the samples the code computes are [0.0/0.0], which is no real
    number: the statements on the samples of [bitcrush] take [2 <= bits]. *)
Definition bitcrush (x : array) (bits downsample : nat) : result array :=
  let q := INR (2 ^ bits) in
  let y := map (fun v => round (v * (q / 2 - 1)) / (q / 2 - 1)) x in
  picked <- stride y downsample ;;
  norm picked.

(** [leslie] of this file takes its carrier from the signal. The phase
    [np.unwrap(np.angle(np.fft.ifft(np.fft.fft(x))))] is computed by NumPy
    alone and is a parameter of the model. *)
Definition leslie (unwrapped_phase : array -> array) (x : array)
    (rate_hz dev_hz am_depth : R) : result array :=
  let t := ChainHendrix.time_axis (length x) in
  let am := map (fun t => 1 + am_depth * sin (2 * PI * rate_hz * t)) t in
  let fm := map (fun t => dev_hz * sin (2 * PI * rate_hz * t)) t in
  let phase := map (fun c => 2 * PI * c) (cumsum (map (fun f => f / SR) fm)) in
  let y := map2 Rmult am
             (map2 (fun u p => sin (u + p)) (unwrapped_phase x) phase) in
  norm y.

(** [guitarish_note], [univibe], [octavia] and [tape_echo] are, statement
    for statement, the functions of [chain_hendrix.py]. *)
Definition guitarish_note := ChainHendrix.guitarish_note.

Definition univibe := ChainHendrix.univibe.
Definition octavia := ChainHendrix.octavia.
Definition tape_echo := ChainHendrix.tape_echo.

End HendrixLab.

(** ** Predicates used in the statements *)

(** What the delay buffer feeds back at index [n] for a delay [d]: the
    output [d] samples earlier, once that sample was itself written by the
    loop, and nothing before. *)
Definition echo_prior (d : nat) (y : array) (n : nat) : R :=
  if ((d <=? n - d) && (0 <? d))%nat then nth (n - d) y 0 else 0.

(** The state of the loop of [tape_echo] when the indices [d .. k-1] are
    done. *)
Definition echo_inv (x : array) (d : nat) (feedback hf_loss : R) (k : nat)
    (st : array * array) : Prop :=
  length (fst st) = length x /\ length (snd st) = length x /\
  (forall j, (j < length x)%nat ->
     nth j (snd st) 0 =
     if ((d <=? j) && (j <? k))%nat then nth j (fst st) 0 else 0) /\
  (forall j, (j < length x)%nat ->
     nth j (fst st) 0 =
     if ((d <=? j) && (j <? k))%nat
     then nth j x 0 + feedback * (hf_loss * echo_prior d (fst st) j)
     else nth j x 0).

(** The delay length as the specification words it: the product rounded to
    the nearest integer, a half going up. *)
Definition rounded_delay_samples (delay_ms : R) : Z :=
  Int_part (SR * delay_ms / 1000 + 0.5).

(** The first sample of the block of a uni-vibe stage that starts at [i], as
    the specification words it: the recursion goes on from the last input
    sample and the last [out] sample of the block before. *)
Definition carried_block_start (lfo : array) (depth : R) (y : array) (base : R)
    (i : nat) : R :=
  let blk := ChainHendrix.univibe_blk in
  let a := ChainHendrix.allpass_coeff (ChainHendrix.univibe_fc lfo base i) in
  let xm1 := nth (i - 1) y 0 in
  let ym1 := nth (blk - 1)
               (ChainHendrix.allpass_out (slice y (i - blk) blk)
                  (ChainHendrix.univibe_fc lfo base (i - blk))) 0 in
  let s := nth i y 0 in
  (1 - depth) * s + depth * (- a * s + xm1 + a * ym1).

(** A test input of 129 samples: silence, but for a click in the last
    sample of the first block. *)
Definition late_click : array := repeat 0 127 ++ [1; 0].

(** In a loop that writes [g i (y[i:i+blk])] over the block starting at [i],
    the value at index [n] once the block holding [n] is written. *)
Definition block_value (blk : nat) (y : array) (g : nat -> array -> array)
    (n : nat) : R :=
  nth (n mod blk)%nat
      (g (n / blk * blk)%nat (slice y (n / blk * blk)%nat blk)) 0.

(** The stems that the loop of [main] writes for the chain [efs] when its
    first position is [i]: one file for each position, none without a stems
    folder. *)
Definition stem_paths (a : ChainHendrix.args) (i : nat) (efs : list string)
  : list path :=
  match ChainHendrix.stems_folder a with
  | Some dir =>
      map (fun p => join dir (ChainHendrix.stem_name (fst p) (snd p)))
          (combine (seq i (length efs)) efs)
  | None => []
  end.

(** The string holds no underscore. *)
Fixpoint no_underscore (s : string) : Prop :=
  match s with
  | EmptyString => True
  | String c rest => c <> "_"%char /\ no_underscore rest
  end.

(** The file of the dry signal, written first when there is a stems
    folder. *)
Definition clean_path (a : ChainHendrix.args) : list path :=
  match ChainHendrix.stems_folder a with
  | Some dir => [join dir "00_clean.wav"]
  | None => []
  end.

(** What an iteration of the loop of [wah_auto] stores for the block [seg]
    that starts at [i]. Where the filter design raises nothing is stored,
    and the block itself stands in. *)
Definition wah_block (sos : Type) (butter_design : nat -> R -> R -> sos)
    (sosfilt : sos -> array -> array) (centers : array) (q : R)
    (i : nat) (seg : array) : array :=
  match ChainHendrix.bandpass_sos sos butter_design (nth i centers 0) q with
  | Ok flt => sosfilt flt seg
  | Raise _ => seg
  end.

(** Peak absolute value at most [b]. *)
Definition peak_le (b : R) (y : array) : Prop :=
  Forall (fun s => Rabs s <= b) y.

(** The effect returned a buffer as long as [x], and its peak is at most 1. *)
Definition shaped (x : array) (r : result array) : Prop :=
  exists y, r = Ok y /\ length y = length x /\ peak_le 1 y.

(** The command line of a run with stems whose chain names an effect that
    is not registered after one that is. *)
Definition args_with_unknown : ChainHendrix.args :=
  {| ChainHendrix.chain := ["octavia"; "phaser"]%string;
     ChainHendrix.out := join "out" "final.wav";
     ChainHendrix.stems := Some "stems"%string |}.

(** ** Arrays and indices *)

Lemma index_nat (len k : nat) :
  (k < len)%nat -> index len (Z.of_nat k) = Ok k.
Proof.
  intros H. unfold index.
  replace ((0 <=? Z.of_nat k) && (Z.of_nat k <? Z.of_nat len))%Z with true.
  - now rewrite Nat2Z.id.
  - symmetry. apply andb_true_iff. split; [apply Z.leb_le | apply Z.ltb_lt]; lia.
Qed.

Lemma index_out_of_range (len : nat) (i : Z) :
  (Z.of_nat len <= i \/ i < - Z.of_nat len)%Z -> index len i = Raise IndexError.
Proof.
  intros H. unfold index.
  replace ((0 <=? i) && (i <? Z.of_nat len))%Z with false.
  - replace ((- Z.of_nat len <=? i) && (i <? 0))%Z with false; [reflexivity|].
    symmetry. apply andb_false_iff.
    destruct H; [right; apply Z.ltb_ge | left; apply Z.leb_gt]; lia.
  - symmetry. apply andb_false_iff.
    destruct H; [right; apply Z.ltb_ge | left; apply Z.leb_gt]; lia.
Qed.

Lemma index_only_IndexError (len : nat) (i : Z) (e : exn) :
  index len i = Raise e -> e = IndexError.
Proof.
  unfold index.
  destruct ((0 <=? i) && (i <? Z.of_nat len))%Z; [discriminate|].
  destruct ((- Z.of_nat len <=? i) && (i <? 0))%Z; [discriminate|].
  now intros [= <-].
Qed.

Lemma get_nat (a : array) (k : nat) :
  (k < length a)%nat -> get a (Z.of_nat k) = Ok (nth k a 0).
Proof. intros H. unfold get. now rewrite index_nat. Qed.

Lemma set_nat (a : array) (k : nat) (v : R) :
  (k < length a)%nat -> set a (Z.of_nat k) v = Ok (set_nth a k v).
Proof. intros H. unfold set. now rewrite index_nat. Qed.

Lemma length_set_nth (a : array) (k : nat) (v : R) :
  length (set_nth a k v) = length a.
Proof.
  revert k. induction a as [|h t IH]; intros [|k]; simpl; auto.
Qed.

Lemma nth_set_nth_eq (a : array) (k : nat) (v : R) :
  (k < length a)%nat -> nth k (set_nth a k v) 0 = v.
Proof.
  revert k. induction a as [|h t IH]; intros [|k] H; simpl in *; try lia; auto.
  apply IH. lia.
Qed.

Lemma nth_set_nth_neq (a : array) (k j : nat) (v : R) :
  j <> k -> nth j (set_nth a k v) 0 = nth j a 0.
Proof.
  revert k j. induction a as [|h t IH]; intros [|k] [|j] H; simpl; auto;
    try congruence.
Qed.

Lemma nth_repeat_zero (n j : nat) : nth j (repeat 0 n) 0 = 0.
Proof.
  revert j. induction n as [|n IH]; intros [|j]; simpl; auto.
Qed.

Lemma range_nat (d len : nat) :
  range (Z.of_nat d) (Z.of_nat len) = map Z.of_nat (seq d (len - d)).
Proof.
  unfold range.
  replace (Z.to_nat (Z.of_nat len - Z.of_nat d)) with (len - d)%nat by lia.
  generalize (len - d)%nat as c. intros c.
  assert (G : forall s, map (fun k => (Z.of_nat d + Z.of_nat k)%Z) (seq s c)
                        = map Z.of_nat (seq (d + s) c)).
  { induction c as [|c IH]; intros s; simpl; [reflexivity|].
    f_equal; [lia|].
    rewrite IH. now rewrite Nat.add_succ_r. }
  rewrite G. now rewrite Nat.add_0_r.
Qed.

Lemma int_IZR (z : Z) : int (IZR z) = z.
Proof.
  unfold int. destruct (Rle_dec 0 (IZR z)) as [H|H].
  - symmetry. apply Int_part_spec. lra.
  - rewrite <- opp_IZR.
    rewrite <- (Int_part_spec (IZR (- z)) (- z)%Z); [lia | lra].
Qed.

(** ** The loop of the tape echo *)

Lemma tape_echo_step_nat (d n : nat) (fb hf : R) (y buf : array) :
  (d <= n)%nat -> (n < length y)%nat -> length buf = length y ->
  EchoIr.tape_echo_step (Z.of_nat d) fb hf (y, buf) (Z.of_nat n) =
  let v := nth n y 0 + fb * (hf * nth (n - d) buf 0) in
  Ok (set_nth y n v, set_nth buf n v).
Proof.
  intros Hd Hn Hl. unfold EchoIr.tape_echo_step.
  replace (Z.of_nat n - Z.of_nat d)%Z with (Z.of_nat (n - d)) by lia.
  rewrite get_nat by lia. cbn [bind].
  rewrite get_nat by lia. cbn [bind].
  rewrite set_nat by lia. cbn [bind].
  rewrite get_nat by (rewrite length_set_nth; lia). cbn [bind].
  rewrite set_nat by lia. cbn [bind].
  rewrite nth_set_nth_eq by lia. reflexivity.
Qed.

Lemma echo_inv_init (x : array) (d : nat) (fb hf : R) :
  echo_inv x d fb hf d (x, zeros_like x).
Proof.
  unfold echo_inv, zeros_like; cbn [fst snd].
  repeat split.
  - apply repeat_length.
  - intros j Hj. rewrite nth_repeat_zero.
    destruct (d <=? j)%nat eqn:E1, (j <? d)%nat eqn:E2; cbn; auto.
    apply Nat.leb_le in E1. apply Nat.ltb_lt in E2. lia.
  - intros j Hj.
    destruct (d <=? j)%nat eqn:E1, (j <? d)%nat eqn:E2; cbn; auto.
    apply Nat.leb_le in E1. apply Nat.ltb_lt in E2. lia.
Qed.

Lemma echo_inv_step (x : array) (d : nat) (fb hf : R) (k : nat) (y buf : array) :
  (d <= k)%nat -> (k < length x)%nat ->
  echo_inv x d fb hf k (y, buf) ->
  let v := nth k y 0 + fb * (hf * nth (k - d) buf 0) in
  echo_inv x d fb hf (S k) (set_nth y k v, set_nth buf k v).
Proof.
  intros Hd Hk (Hy & Hb & Ib & Iy) v. cbn [fst snd] in *.
  assert (Hv : v = nth k x 0 + fb * (hf * echo_prior d y k)).
  { unfold v. rewrite (Iy k Hk), (Ib (k - d)%nat) by lia.
    replace (k <? k)%nat with false by (symmetry; apply Nat.ltb_ge; lia).
    rewrite andb_false_r. unfold echo_prior.
    destruct (d <=? k - d)%nat eqn:E1; cbn [andb]; [|reflexivity].
    destruct (0 <? d)%nat eqn:E2.
    - replace (k - d <? k)%nat with true; [reflexivity|].
      symmetry. apply Nat.ltb_lt. apply Nat.ltb_lt in E2. lia.
    - replace (k - d <? k)%nat with false; [reflexivity|].
      symmetry. apply Nat.ltb_ge. apply Nat.ltb_ge in E2. lia. }
  unfold echo_inv; cbn [fst snd]. rewrite !length_set_nth.
  repeat split; auto.
  - intros j Hj. destruct (Nat.eq_dec j k) as [->|Hjk].
    + rewrite !nth_set_nth_eq by lia.
      replace (d <=? k)%nat with true by (symmetry; apply Nat.leb_le; lia).
      replace (k <? S k)%nat with true by (symmetry; apply Nat.ltb_lt; lia).
      reflexivity.
    + rewrite !nth_set_nth_neq by assumption. rewrite (Ib j Hj).
      replace (j <? S k)%nat with (j <? k)%nat; [reflexivity|].
      destruct (j <? k)%nat eqn:E; symmetry;
        [apply Nat.ltb_lt; apply Nat.ltb_lt in E | apply Nat.ltb_ge; apply Nat.ltb_ge in E]; lia.
  - intros j Hj. destruct (Nat.eq_dec j k) as [->|Hjk].
    + rewrite nth_set_nth_eq by lia.
      replace (d <=? k)%nat with true by (symmetry; apply Nat.leb_le; lia).
      replace (k <? S k)%nat with true by (symmetry; apply Nat.ltb_lt; lia).
      cbn [andb]. rewrite Hv. unfold echo_prior.
      destruct ((d <=? k - d) && (0 <? d))%nat eqn:E; [|reflexivity].
      apply andb_true_iff in E. destruct E as [_ E]. apply Nat.ltb_lt in E.
      rewrite nth_set_nth_neq by lia. reflexivity.
    + rewrite nth_set_nth_neq by assumption. rewrite (Iy j Hj).
      replace (j <? S k)%nat with (j <? k)%nat.
      2:{ destruct (j <? k)%nat eqn:E; symmetry;
          [apply Nat.ltb_lt; apply Nat.ltb_lt in E | apply Nat.ltb_ge; apply Nat.ltb_ge in E]; lia. }
      destruct ((d <=? j) && (j <? k))%nat eqn:E; [|reflexivity].
      apply andb_true_iff in E. destruct E as [E1 E2].
      apply Nat.leb_le in E1. apply Nat.ltb_lt in E2.
      unfold echo_prior.
      destruct ((d <=? j - d) && (0 <? d))%nat; [|reflexivity].
      rewrite nth_set_nth_neq by lia. reflexivity.
Qed.

Lemma echo_loop_inv (x : array) (d : nat) (fb hf : R) :
  forall (count k : nat) (st : array * array),
    (d <= k)%nat -> (count <> 0%nat -> (k + count <= length x)%nat) ->
    echo_inv x d fb hf k st ->
    exists st',
      for_each (EchoIr.tape_echo_step (Z.of_nat d) fb hf)
               (map Z.of_nat (seq k count)) st = Ok st' /\
      echo_inv x d fb hf (k + count) st'.
Proof.
  induction count as [|count IH]; intros k [y buf] Hd Hc I.
  - exists (y, buf). rewrite Nat.add_0_r. split; [reflexivity | assumption].
  - assert (Hk : (k < length x)%nat) by (specialize (Hc ltac:(lia)); lia).
    pose proof I as (Hy & Hb & _). cbn [fst snd] in Hy, Hb.
    cbn [seq map for_each].
    rewrite tape_echo_step_nat by lia. cbn [bind].
    destruct (IH (S k) _ ltac:(lia) ltac:(intros; specialize (Hc ltac:(lia)); lia)
                 (echo_inv_step x d fb hf k y buf Hd Hk I)) as (st' & Hrun & I').
    exists st'. split; [exact Hrun|].
    now rewrite Nat.add_succ_r.
Qed.

(** The recurrence the loop computes, for a delay of [d >= 0] samples. *)
Lemma tape_echo_loop_spec (x : array) (d : nat) (fb hf : R) :
  exists st,
    for_each (EchoIr.tape_echo_step (Z.of_nat d) fb hf)
             (range (Z.of_nat d) (Z.of_nat (length x))) (x, zeros_like x) = Ok st /\
    length (fst st) = length x /\
    forall n, (n < length x)%nat ->
      nth n (fst st) 0 =
      if (d <=? n)%nat
      then nth n x 0 + fb * (hf * echo_prior d (fst st) n)
      else nth n x 0.
Proof.
  rewrite range_nat.
  destruct (echo_loop_inv x d fb hf (length x - d) d (x, zeros_like x)
              (Nat.le_refl d) ltac:(lia) (echo_inv_init x d fb hf))
    as (st & Hrun & (Hy & _ & _ & Iy)).
  exists st. split; [exact Hrun|]. split; [exact Hy|].
  intros n Hn. rewrite (Iy n Hn).
  destruct (d <=? n)%nat eqn:E; cbn [andb]; [|reflexivity].
  replace (n <? d + (length x - d))%nat with true; [reflexivity|].
  symmetry. apply Nat.ltb_lt. apply Nat.leb_le in E. lia.
Qed.

Lemma tape_echo_nat (x : array) (delay_ms fb hf : R) (d : nat) :
  EchoIr.delay_samples delay_ms = Z.of_nat d ->
  exists y,
    EchoIr.tape_echo x delay_ms fb hf = Ok y /\
    length y = length x /\
    forall n, (n < length x)%nat ->
      nth n y 0 =
      if (d <=? n)%nat then nth n x 0 + fb * (hf * echo_prior d y n)
      else nth n x 0.
Proof.
  intros Hd. unfold EchoIr.tape_echo. rewrite Hd.
  destruct (tape_echo_loop_spec x d fb hf) as (st & Hrun & Hlen & Hnth).
  exists (fst st). rewrite Hrun. cbn [bind]. auto.
Qed.

Lemma array_ext (a b : array) :
  length a = length b ->
  (forall n, (n < length a)%nat -> nth n a 0 = nth n b 0) -> a = b.
Proof. intros Hl H. apply (nth_ext a b 0 0 Hl H). Qed.

(** An input that is silent from index [d] on comes back unchanged: what
    the first [d] samples hold is never fed back. *)
Lemma tape_echo_silent_tail (x : array) (delay_ms fb hf : R) (d : nat) :
  EchoIr.delay_samples delay_ms = Z.of_nat d ->
  (forall j, (d <= j)%nat -> nth j x 0 = 0) ->
  EchoIr.tape_echo x delay_ms fb hf = Ok x.
Proof.
  intros Hd Hx.
  destruct (tape_echo_nat x delay_ms fb hf d Hd) as (y & Hrun & Hlen & Hnth).
  rewrite Hrun. f_equal. apply array_ext; [exact Hlen|].
  rewrite Hlen. intros n.
  induction n as [n IH] using (well_founded_induction lt_wf). intros Hn.
  rewrite (Hnth n Hn).
  destruct (d <=? n)%nat eqn:E; [|reflexivity].
  unfold echo_prior.
  destruct ((d <=? n - d) && (0 <? d))%nat eqn:E2; [|lra].
  apply andb_true_iff in E2. destruct E2 as [E2 E3].
  apply Nat.leb_le in E, E2. apply Nat.ltb_lt in E3.
  rewrite IH by lia. rewrite (Hx (n - d)%nat E2). lra.
Qed.

Lemma get_only_IndexError (a : array) (i : Z) (e : exn) :
  get a i = Raise e -> e = IndexError.
Proof.
  unfold get. destruct (index (length a) i) eqn:E; cbn [bind]; [discriminate|].
  intros [= <-]. eapply index_only_IndexError; eauto.
Qed.

Lemma set_only_IndexError (a : array) (i : Z) (v : R) (e : exn) :
  set a i v = Raise e -> e = IndexError.
Proof.
  unfold set. destruct (index (length a) i) eqn:E; cbn [bind]; [discriminate|].
  intros [= <-]. eapply index_only_IndexError; eauto.
Qed.

Lemma set_length (a a' : array) (i : Z) (v : R) :
  set a i v = Ok a' -> length a' = length a.
Proof.
  unfold set. destruct (index (length a) i); cbn [bind]; [|discriminate].
  intros [= <-]. apply length_set_nth.
Qed.

Lemma tape_echo_step_cases (d : Z) (fb hf : R) (y buf : array) (n : Z) :
  EchoIr.tape_echo_step d fb hf (y, buf) n = Raise IndexError \/
  exists y' buf',
    EchoIr.tape_echo_step d fb hf (y, buf) n = Ok (y', buf') /\
    length y' = length y /\ length buf' = length buf.
Proof.
  unfold EchoIr.tape_echo_step.
  destruct (get buf (n - d)) as [b|e] eqn:E1; cbn [bind];
    [|left; now rewrite (get_only_IndexError _ _ _ E1)].
  destruct (get y n) as [yn|e] eqn:E2; cbn [bind];
    [|left; now rewrite (get_only_IndexError _ _ _ E2)].
  destruct (set y n _) as [y'|e] eqn:E3; cbn [bind];
    [|left; now rewrite (set_only_IndexError _ _ _ _ E3)].
  destruct (get y' n) as [yn'|e] eqn:E4; cbn [bind];
    [|left; now rewrite (get_only_IndexError _ _ _ E4)].
  destruct (set buf n yn') as [buf'|e] eqn:E5; cbn [bind];
    [|left; now rewrite (set_only_IndexError _ _ _ _ E5)].
  right. exists y', buf'. split; [reflexivity|].
  split; eapply set_length; eauto.
Qed.

(** A loop that meets an index whose read is out of range ends in
    [IndexError], wherever that index stands in the range. *)
Lemma tape_echo_loop_raises (d : Z) (fb hf : R) (len : nat) (bad : Z) :
  (Z.of_nat len <= bad - d)%Z ->
  forall (ns : list Z) (y buf : array),
    In bad ns -> length y = len -> length buf = len ->
    for_each (EchoIr.tape_echo_step d fb hf) ns (y, buf) = Raise IndexError.
Proof.
  intros Hbad. induction ns as [|n ns IH]; intros y buf Hin Hy Hb; [destruct Hin|].
  cbn [for_each].
  destruct (tape_echo_step_cases d fb hf y buf n) as [E|(y' & buf' & E & Hy' & Hb')];
    rewrite E; cbn [bind]; [reflexivity|].
  destruct Hin as [->|Hin].
  - exfalso. unfold EchoIr.tape_echo_step in E. unfold get at 1 in E.
    rewrite index_out_of_range in E by lia. discriminate.
  - apply IH; congruence.
Qed.

(** A negative delay on a signal that is not empty ends in [IndexError]. *)
Lemma tape_echo_negative_delay (x : array) (delay_ms fb hf : R) :
  x <> [] -> (EchoIr.delay_samples delay_ms < 0)%Z ->
  EchoIr.tape_echo x delay_ms fb hf = Raise IndexError.
Proof.
  intros Hx Hd. unfold EchoIr.tape_echo.
  set (d := EchoIr.delay_samples delay_ms) in *.
  assert (Hlen : (0 < length x)%nat) by (destruct x; [congruence | simpl; lia]).
  rewrite (tape_echo_loop_raises d fb hf (length x) (Z.of_nat (length x) - 1));
    [reflexivity | lia | | reflexivity | apply repeat_length].
  unfold range. apply in_map_iff.
  exists (Z.to_nat (Z.of_nat (length x) - 1 - d)). split; [lia|].
  apply in_seq. lia.
Qed.

(** ** Normalisation *)

Lemma fold_left_Rmax_ge (t : array) (h : R) :
  h <= fold_left Rmax t h /\ forall s, In s t -> s <= fold_left Rmax t h.
Proof.
  revert h. induction t as [|a t IH]; intros h; cbn [fold_left].
  - split; [lra | intros s []].
  - destruct (IH (Rmax h a)) as [H1 H2]. split.
    + pose proof (Rmax_l h a). lra.
    + intros s [<-|Hs]; [pose proof (Rmax_r h a); lra | auto].
Qed.

Lemma max_abs_spec (x : array) (m : R) :
  max (map Rabs x) = Ok m -> 0 <= m /\ forall s, In s x -> Rabs s <= m.
Proof.
  destruct x as [|h t]; cbn [map max]; [discriminate|].
  intros [= <-]. destruct (fold_left_Rmax_ge (map Rabs t) (Rabs h)) as [H1 H2].
  split.
  - pose proof (Rabs_pos h). lra.
  - intros s [<-|Hs]; [exact H1|]. apply H2. now apply in_map.
Qed.

Lemma max_abs_ok (x : array) :
  x <> [] -> exists m, max (map Rabs x) = Ok m.
Proof. destruct x; [congruence|]. intros _. cbn. eauto. Qed.

Lemma scaled_sample_le_1 (s m : R) :
  0 <= m -> Rabs s <= m -> Rabs (s / (m + 1e-12)) <= 1.
Proof.
  intros Hm Hs.
  assert (Hpos : 0 < m + 1e-12) by lra.
  remember (m + 1e-12) as M eqn:HM.
  unfold Rdiv. rewrite Rabs_mult.
  rewrite (Rabs_right (/ M))
    by (apply Rle_ge, Rlt_le, Rinv_0_lt_compat, Hpos).
  apply (Rmult_le_reg_r M); [exact Hpos|].
  rewrite Rmult_assoc, Rinv_l by lra. lra.
Qed.

(** [norm] returns on every buffer that is not empty, keeps its length and
    brings its peak to at most 1. *)
Lemma norm_peak (x : array) :
  x <> [] ->
  exists y, ChainHendrix.norm x = Ok y /\ length y = length x /\ peak_le 1 y.
Proof.
  intros Hx. destruct (max_abs_ok x Hx) as [m Hm].
  unfold ChainHendrix.norm. rewrite Hm. cbn [bind].
  eexists. split; [reflexivity|]. split; [apply length_map|].
  destruct (max_abs_spec x m Hm) as [H0 Hall].
  unfold peak_le. apply Forall_forall. intros s Hs.
  apply in_map_iff in Hs. destruct Hs as (v & <- & Hv).
  apply scaled_sample_le_1; auto.
Qed.

Lemma nonempty_length (x : array) : x <> [] <-> (0 < length x)%nat.
Proof. destruct x; simpl; split; intros; try congruence; lia. Qed.

(** ** The delay in samples *)

Lemma int_floor (r : R) :
  0 <= r -> IZR (int r) <= r < IZR (int r) + 1.
Proof.
  intros H. unfold int. destruct (Rle_dec 0 r) as [_|N]; [|contradiction].
  destruct (base_Int_part r). lra.
Qed.

Lemma int_unique (r : R) (z : Z) :
  (0 <= z)%Z -> IZR z <= r < IZR z + 1 -> int r = z.
Proof.
  intros Hz [H1 H2]. unfold int.
  assert (0 <= IZR z) by (apply IZR_le in Hz; exact Hz).
  destruct (Rle_dec 0 r) as [_|N]; [|lra].
  symmetry. apply Int_part_spec. lra.
Qed.

Lemma int_small_negative (r : R) : -1 < r <= 0 -> int r = 0%Z.
Proof.
  intros [H1 H2]. unfold int. destruct (Rle_dec 0 r) as [P|N].
  - symmetry. apply Int_part_spec. simpl. lra.
  - rewrite <- (Int_part_spec (- r) 0); [reflexivity | simpl; lra].
Qed.

Lemma int_negative (r : R) : r <= -1 -> (int r < 0)%Z.
Proof.
  intros H. unfold int. destruct (Rle_dec 0 r) as [P|N]; [lra|].
  destruct (base_Int_part (- r)) as [_ H2].
  assert (H3 : 0 < IZR (Int_part (- r))) by lra.
  apply lt_IZR in H3. lia.
Qed.

Lemma delay_samples_exact (delay_ms : R) (z : Z) :
  SR * delay_ms / 1000 = IZR z -> EchoIr.delay_samples delay_ms = z.
Proof. intros H. unfold EchoIr.delay_samples. rewrite H. apply int_IZR. Qed.

Lemma delay_samples_default : EchoIr.delay_samples 120 = 5760%Z.
Proof. apply delay_samples_exact. unfold SR. lra. Qed.

Lemma delay_samples_nonneg (delay_ms : R) :
  0 <= delay_ms -> (0 <= EchoIr.delay_samples delay_ms)%Z.
Proof.
  intros H. unfold EchoIr.delay_samples.
  assert (H0 : 0 <= SR * delay_ms / 1000) by (unfold SR; lra).
  destruct (int_floor _ H0) as [_ H2].
  assert (H3 : -1 < IZR (int (SR * delay_ms / 1000))) by lra.
  apply lt_IZR in H3. lia.
Qed.

Lemma delay_samples_one : EchoIr.delay_samples (1 / 48) = 1%Z.
Proof. apply delay_samples_exact. unfold SR. lra. Qed.

(** ** Claims on the tape echo *)

(** C4, as the code has it: for every positive [delay_ms] the delay length is
    the product [SR*delay_ms/1000] cut down to an integer, not rounded to the
    nearest one; for 120 ms at 48 kHz it is exactly 5760 samples. *)
Theorem delay_samples_truncates (delay_ms : R) :
  0 < delay_ms ->
  IZR (EchoIr.delay_samples delay_ms) <= SR * delay_ms / 1000
    < IZR (EchoIr.delay_samples delay_ms) + 1
  /\ EchoIr.delay_samples 120 = 5760%Z.
Proof.
  intros H. split; [|exact delay_samples_default].
  apply int_floor. unfold SR. lra.
Qed.

Lemma delay_samples_truncates_witness :
  0 < 120 /\
  (IZR (EchoIr.delay_samples 120) <= SR * 120 / 1000
     < IZR (EchoIr.delay_samples 120) + 1
   /\ EchoIr.delay_samples 120 = 5760%Z).
Proof. split; [lra | apply (delay_samples_truncates 120); lra]. Defined.

(** C4 fails as stated: a delay of 5/128 ms is 1.875 samples, which the code
    cuts to 1 and rounding to the nearest integer makes 2. *)
Lemma delay_samples_not_rounded :
  0 < 5 / 128 /\
  EchoIr.delay_samples (5 / 128) = 1%Z /\
  rounded_delay_samples (5 / 128) = 2%Z /\
  EchoIr.delay_samples (5 / 128) <> rounded_delay_samples (5 / 128).
Proof.
  assert (H1 : EchoIr.delay_samples (5 / 128) = 1%Z).
  { unfold EchoIr.delay_samples. apply int_unique; [lia|]. unfold SR. simpl. lra. }
  assert (H2 : rounded_delay_samples (5 / 128) = 2%Z).
  { unfold rounded_delay_samples. symmetry. apply Int_part_spec.
    unfold SR. simpl. lra. }
  repeat split; [lra | exact H1 | exact H2 | rewrite H1, H2; discriminate].
Qed.

(** C9: when the delay [d] is at least one sample, the output before
    normalisation equals the input at every index below [2*d]; it is the
    array that [chain_hendrix.py] and [hendrix_lab.py] then normalise. *)
Theorem tape_echo_dry_below_two_delays (x : array) (delay_ms feedback hf_loss : R) :
  (1 <= EchoIr.delay_samples delay_ms)%Z ->
  exists y,
    EchoIr.tape_echo x delay_ms feedback hf_loss = Ok y /\
    ChainHendrix.tape_echo x delay_ms feedback hf_loss = ChainHendrix.norm y /\
    HendrixLab.tape_echo x delay_ms feedback hf_loss = HendrixLab.norm y /\
    length y = length x /\
    forall n, (n < length x)%nat ->
      (Z.of_nat n < 2 * EchoIr.delay_samples delay_ms)%Z ->
      nth n y 0 = nth n x 0.
Proof.
  intros Hd.
  remember (Z.to_nat (EchoIr.delay_samples delay_ms)) as d eqn:Hdn.
  destruct (tape_echo_nat x delay_ms feedback hf_loss d ltac:(lia))
    as (y & Hrun & Hlen & Hnth).
  exists y. unfold HendrixLab.tape_echo, ChainHendrix.tape_echo. rewrite Hrun.
  repeat split; auto.
  intros n Hn H2d. rewrite (Hnth n Hn).
  destruct (d <=? n)%nat eqn:E; [|reflexivity].
  unfold echo_prior.
  destruct (d <=? n - d)%nat eqn:E2; cbn [andb]; [|lra].
  apply Nat.leb_le in E, E2. lia.
Qed.

Lemma tape_echo_dry_below_two_delays_witness :
  exists y,
    EchoIr.tape_echo [1; 0.5; 0.25] 120 0.6 0.75 = Ok y /\
    ChainHendrix.tape_echo [1; 0.5; 0.25] 120 0.6 0.75 = ChainHendrix.norm y /\
    HendrixLab.tape_echo [1; 0.5; 0.25] 120 0.6 0.75 = HendrixLab.norm y /\
    length y = length [1; 0.5; 0.25] /\
    forall n, (n < length [1; 0.5; 0.25]%R)%nat ->
      (Z.of_nat n < 2 * EchoIr.delay_samples 120)%Z ->
      nth n y 0 = nth n [1; 0.5; 0.25] 0.
Proof.
  apply (tape_echo_dry_below_two_delays [1; 0.5; 0.25] 120 0.6 0.75).
  rewrite delay_samples_default. lia.
Defined.

Lemma impulse_length : int (SR * 1.2) = 57600%Z.
Proof.
  replace (SR * 1.2) with (IZR 57600) by (unfold SR; lra). apply int_IZR.
Qed.

(** C3, on the code: the unit impulse of [echo_ir.py] (1.2 s, 57600 samples)
    through [tape_echo] with the default 120 ms, 0.6 and 0.75 comes back as
    the impulse alone. The sample at index 5760 is 0, where the claim has a
    pulse of 0.6*0.75. *)
Theorem tape_echo_impulse_has_no_echo :
  exists x,
    EchoIr.unit_impulse (Z.to_nat (int (SR * 1.2))) = Ok x /\
    EchoIr.impulse_response 120 0.6 0.75 1.2 = Ok x /\
    Z.of_nat (length x) = 57600%Z /\
    nth 0 x 0 = 1 /\
    (forall n, (1 <= n)%nat -> nth n x 0 = 0) /\
    nth (Z.to_nat 5760) x 0 <> 0.6 * 0.75.
Proof.
  unfold EchoIr.impulse_response. rewrite impulse_length.
  assert (HN : exists m, Z.to_nat 57600 = S m /\ Z.of_nat m = 57599%Z)
    by (exists (Z.to_nat 57599); lia).
  destruct HN as (m & HN & Hm). rewrite HN.
  assert (Hz : forall n, (1 <= n)%nat -> nth n (1 :: repeat 0 m) 0 = 0).
  { intros [|n] Hn; [lia|]. cbn [nth]. apply nth_repeat_zero. }
  exists (1 :: repeat 0 m).
  change (EchoIr.unit_impulse (S m)) with (@Ok array (1 :: repeat 0 m)).
  cbn [bind]. repeat split.
  - apply (tape_echo_silent_tail _ 120 0.6 0.75 (Z.to_nat 5760)).
    + rewrite delay_samples_default. lia.
    + intros j Hj. apply Hz. lia.
  - cbn [length]. rewrite repeat_length. lia.
  - exact Hz.
  - rewrite Hz by lia. lra.
Qed.

Lemma tape_echo_no_feedback (x : array) (delay_ms hf : R) :
  (0 <= EchoIr.delay_samples delay_ms)%Z ->
  EchoIr.tape_echo x delay_ms 0 hf = Ok x.
Proof.
  intros Hd.
  destruct (tape_echo_nat x delay_ms 0 hf
              (Z.to_nat (EchoIr.delay_samples delay_ms)) ltac:(lia))
    as (y & Hrun & Hlen & Hnth).
  rewrite Hrun. f_equal. apply array_ext; [exact Hlen|].
  rewrite Hlen. intros n Hn. rewrite (Hnth n Hn).
  destruct (_ <=? n)%nat; lra.
Qed.

Lemma tape_echo_zero_delay (x : array) (delay_ms fb hf : R) :
  EchoIr.delay_samples delay_ms = 0%Z ->
  EchoIr.tape_echo x delay_ms fb hf = Ok x.
Proof.
  intros Hd.
  destruct (tape_echo_nat x delay_ms fb hf 0%nat Hd) as (y & Hrun & Hlen & Hnth).
  rewrite Hrun. f_equal. apply array_ext; [exact Hlen|].
  rewrite Hlen. intros n Hn. rewrite (Hnth n Hn).
  unfold echo_prior. cbn [Nat.leb Nat.ltb]. rewrite andb_false_r. lra.
Qed.

(** C6: [tape_echo] with [feedback = 0] returns the input divided, sample
    for sample, by [max(|x|) + 1e-12], whatever [delay_ms] and [hf_loss]
    are, on every signal that is not empty and for every delay
    [d = int(SR*delay_ms/1000)] that is not negative. *)
Theorem tape_echo_feedback_zero (x : array) (delay_ms hf_loss : R) :
  x <> [] ->
  (0 <= EchoIr.delay_samples delay_ms)%Z ->
  exists m,
    max (map Rabs x) = Ok m /\
    ChainHendrix.tape_echo x delay_ms 0 hf_loss
    = Ok (map (fun s => s / (m + 1e-12)) x).
Proof.
  intros Hx Hd. destruct (max_abs_ok x Hx) as [m Hm]. exists m.
  split; [exact Hm|].
  unfold ChainHendrix.tape_echo. rewrite tape_echo_no_feedback by exact Hd.
  cbn [bind]. unfold ChainHendrix.norm. rewrite Hm. reflexivity.
Qed.

Lemma tape_echo_feedback_zero_witness :
  exists m,
    max (map Rabs [1; -2; 0.5]) = Ok m /\
    ChainHendrix.tape_echo [1; -2; 0.5] (1 / 48) 0 0.75
    = Ok (map (fun s => s / (m + 1e-12)) [1; -2; 0.5]).
Proof.
  apply (tape_echo_feedback_zero [1; -2; 0.5] (1 / 48) 0.75).
  - discriminate.
  - rewrite delay_samples_one. lia.
Defined.

(** C8 fails as stated: a delay of 0 ms, outside the physical domain, is
    processed without any error. *)
Lemma tape_echo_zero_delay_accepted :
  ChainHendrix.tape_echo [1] 0 0.6 0.75 = Ok [1 / (Rabs 1 + 1e-12)].
Proof.
  unfold ChainHendrix.tape_echo. rewrite tape_echo_zero_delay; [reflexivity|].
  apply (delay_samples_exact 0 0). unfold SR. lra.
Qed.

(** ** Loops that write a buffer block by block *)

Lemma length_slice (a : array) (i n : nat) :
  length (slice a i n) = Nat.min n (length a - i).
Proof. unfold slice. now rewrite length_firstn, length_skipn. Qed.

Lemma nth_slice (a : array) (i n j : nat) :
  (j < n)%nat -> nth j (slice a i n) 0 = nth (i + j) a 0.
Proof.
  intros H. unfold slice. rewrite nth_firstn.
  replace (j <? n)%nat with true by (symmetry; apply Nat.ltb_lt; lia).
  apply nth_skipn.
Qed.

Lemma set_slice_fits (a : array) (i n : nat) (v : array) :
  length v = length (slice a i n) ->
  set_slice a i n v = Ok (firstn i a ++ v ++ skipn (i + length v) a).
Proof.
  intros H. unfold set_slice. rewrite <- H, Nat.eqb_refl. reflexivity.
Qed.

Lemma length_written (a : array) (i n : nat) (v : array) :
  length v = length (slice a i n) ->
  length (firstn i a ++ v ++ skipn (i + length v) a) = length a.
Proof.
  intros H. rewrite !length_app, length_firstn, length_skipn, H, length_slice. lia.
Qed.

Lemma nth_written (a : array) (i n : nat) (v : array) (j : nat) :
  length v = length (slice a i n) -> (i <= length a)%nat ->
  nth j (firstn i a ++ v ++ skipn (i + length v) a) 0 =
  if ((i <=? j) && (j <? i + length v))%nat then nth (j - i) v 0 else nth j a 0.
Proof.
  intros H Hi.
  assert (Hf : length (firstn i a) = i) by (rewrite length_firstn; lia).
  destruct (i <=? j)%nat eqn:E1; cbn [andb].
  - apply Nat.leb_le in E1.
    rewrite app_nth2 by lia. rewrite Hf.
    destruct (j <? i + length v)%nat eqn:E2.
    + apply Nat.ltb_lt in E2. rewrite app_nth1 by lia. reflexivity.
    + apply Nat.ltb_ge in E2. rewrite app_nth2 by lia.
      rewrite nth_skipn. f_equal. lia.
  - apply Nat.leb_gt in E1. rewrite app_nth1 by lia.
    rewrite nth_firstn.
    replace (j <? i)%nat with true by (symmetry; apply Nat.ltb_lt; lia).
    reflexivity.
Qed.

Lemma nth_before_written (a rest : array) (i n : nat) :
  (n < i)%nat -> (n < length a)%nat ->
  nth n (firstn i a ++ rest) 0 = nth n a 0.
Proof.
  intros Hi Hn. rewrite app_nth1 by (rewrite length_firstn; lia).
  rewrite nth_firstn.
  replace (n <? i)%nat with true by (symmetry; apply Nat.ltb_lt; lia).
  reflexivity.
Qed.

Lemma range_step_covers (n step : nat) :
  (0 < step)%nat -> (n <= (n + step - 1) / step * step)%nat.
Proof.
  intros H.
  pose proof (Nat.div_mod_eq (n + step - 1) step) as E.
  pose proof (Nat.mod_upper_bound (n + step - 1) step ltac:(lia)) as U.
  nia.
Qed.

Lemma block_of_index (blk k n : nat) :
  (k * blk <= n)%nat -> (n < (k + 1) * blk)%nat ->
  (n / blk = k /\ n mod blk = n - k * blk)%nat.
Proof.
  intros H1 H2.
  assert (Hb : (0 < blk)%nat) by nia.
  assert (Hq : (n / blk = k)%nat).
  { symmetry. apply (Nat.div_unique n blk k (n - k * blk)); nia. }
  split; [exact Hq|].
  pose proof (Nat.div_mod_eq n blk) as E. rewrite Hq in E. nia.
Qed.

Section Blockwise.

Variable blk : nat.
Hypothesis blk_pos : (0 < blk)%nat.
Variable y : array.
Variable g : nat -> array -> array.
Hypothesis g_length : forall i seg, length (g i seg) = length seg.

Lemma blockwise_loop :
  forall (c k0 : nat) (z : array),
    length z = length y ->
    exists z',
      for_each (fun z i => set_slice z i blk (g i (slice y i blk)))
               (map (fun k => (k * blk)%nat) (seq k0 c)) z = Ok z' /\
      length z' = length y /\
      forall n, (n < length y)%nat ->
        nth n z' 0 =
        if ((k0 * blk <=? n) && (n <? (k0 + c) * blk))%nat
        then block_value blk y g n else nth n z 0.
Proof.
  induction c as [|c IH]; intros k0 z Hz.
  - exists z. split; [reflexivity|]. split; [exact Hz|].
    intros n Hn. rewrite Nat.add_0_r.
    destruct (k0 * blk <=? n)%nat eqn:E1, (n <? k0 * blk)%nat eqn:E2;
      cbn [andb]; try reflexivity.
    apply Nat.leb_le in E1. apply Nat.ltb_lt in E2. lia.
  - cbn [seq map for_each].
    set (i := (k0 * blk)%nat).
    set (v := g i (slice y i blk)).
    assert (Hv : length v = length (slice z i blk)).
    { unfold v. rewrite g_length, !length_slice, Hz. reflexivity. }
    rewrite (set_slice_fits z i blk v Hv). cbn [bind].
    set (z1 := firstn i z ++ v ++ skipn (i + length v) z).
    assert (Hz1 : length z1 = length y)
      by (unfold z1; rewrite (length_written z i blk v Hv); exact Hz).
    destruct (IH (S k0) z1 Hz1) as (z' & Hrun & Hlen & Hnth).
    exists z'. split; [exact Hrun|]. split; [exact Hlen|].
    intros n Hn. rewrite (Hnth n Hn).
    destruct (S k0 * blk <=? n)%nat eqn:E1.
    + apply Nat.leb_le in E1.
      replace (i <=? n)%nat with true
        by (symmetry; apply Nat.leb_le; unfold i; nia).
      replace ((S k0 + c) * blk)%nat with ((k0 + S c) * blk)%nat by (f_equal; lia).
      cbn [andb]. destruct (n <? (k0 + S c) * blk)%nat; [reflexivity|].
      unfold z1. rewrite (nth_written z i blk v n Hv) by (unfold i; nia).
      replace (n <? i + length v)%nat with false; [now rewrite andb_false_r|].
      symmetry. apply Nat.ltb_ge. rewrite Hv, length_slice. unfold i. nia.
    + apply Nat.leb_gt in E1. cbn [andb].
      destruct (i <=? n)%nat eqn:E2; cbn [andb].
      * apply Nat.leb_le in E2.
        replace (n <? (k0 + S c) * blk)%nat with true
          by (symmetry; apply Nat.ltb_lt; nia).
        destruct (block_of_index blk k0 n E2 ltac:(nia)) as [Hq Hr].
        assert (Hin : (n < i + length v)%nat).
        { rewrite Hv, length_slice, Hz. unfold i. nia. }
        unfold z1. rewrite (nth_written z i blk v n Hv) by lia.
        replace (i <=? n)%nat with true by (symmetry; apply Nat.leb_le; exact E2).
        replace (n <? i + length v)%nat with true
          by (symmetry; apply Nat.ltb_lt; exact Hin).
        cbn [andb]. unfold block_value. rewrite Hq, Hr. reflexivity.
      * apply Nat.leb_gt in E2.
        unfold z1. apply nth_before_written; lia.
Qed.

(** The whole loop over [range(0, len(y), blk)], from [np.zeros_like(y)]. *)
Lemma blockwise_for_each :
  exists z,
    for_each (fun z i => set_slice z i blk (g i (slice y i blk)))
             (range_step (length y) blk) (zeros_like y) = Ok z /\
    length z = length y /\
    forall n, (n < length y)%nat -> nth n z 0 = block_value blk y g n.
Proof.
  unfold range_step.
  destruct (blockwise_loop ((length y + blk - 1) / blk) 0 (zeros_like y)
              (repeat_length _ _)) as (z & Hrun & Hlen & Hnth).
  exists z. split; [exact Hrun|]. split; [exact Hlen|].
  intros n Hn. rewrite (Hnth n Hn). cbn [Nat.mul Nat.leb andb].
  replace (n <? (0 + (length y + blk - 1) / blk) * blk)%nat with true;
    [reflexivity|].
  symmetry. apply Nat.ltb_lt. cbn [Nat.add].
  pose proof (range_step_covers (length y) blk blk_pos). lia.
Qed.

End Blockwise.

(** ** The all-pass stages of the uni-vibe *)

Lemma length_allpass_loop (a xm1 ym1 : R) (seg : array) :
  length (ChainHendrix.allpass_loop a xm1 ym1 seg) = length seg.
Proof.
  revert xm1 ym1. induction seg as [|s r IH]; intros xm1 ym1; simpl; auto.
Qed.

Lemma length_map2 (f : R -> R -> R) (a b : array) :
  length (map2 f a b) = Nat.min (length a) (length b).
Proof.
  revert b. induction a as [|x a IH]; intros [|y b]; simpl; auto.
Qed.

Lemma length_allpass (seg : array) (fc d : R) :
  length (ChainHendrix.allpass seg fc d) = length seg.
Proof.
  unfold ChainHendrix.allpass, ChainHendrix.allpass_out.
  rewrite length_map2, length_allpass_loop. lia.
Qed.

Lemma last_cons_default (x d : R) (l : array) : last (x :: l) d = last l x.
Proof.
  revert x d. induction l as [|h t IH]; intros x d; [reflexivity|].
  change (last (x :: h :: t) d) with (last (h :: t) d).
  now rewrite !IH.
Qed.

Lemma allpass_loop_app (a xm1 ym1 : R) (l1 l2 : array) :
  ChainHendrix.allpass_loop a xm1 ym1 (l1 ++ l2) =
  ChainHendrix.allpass_loop a xm1 ym1 l1 ++
  ChainHendrix.allpass_loop a (last l1 xm1)
    (last (ChainHendrix.allpass_loop a xm1 ym1 l1) ym1) l2.
Proof.
  revert xm1 ym1. induction l1 as [|s r IH]; intros xm1 ym1; [reflexivity|].
  cbn [app ChainHendrix.allpass_loop]. rewrite IH.
  now rewrite !last_cons_default.
Qed.

Lemma allpass_loop_silence (a : R) (n : nat) :
  ChainHendrix.allpass_loop a 0 0 (repeat 0 n) = repeat 0 n.
Proof.
  induction n as [|n IH]; [reflexivity|].
  cbn [repeat ChainHendrix.allpass_loop].
  replace (- a * 0 + 0 + a * 0) with 0 by lra. now rewrite IH.
Qed.

Lemma last_repeat_zero (n : nat) : last (repeat 0 n) 0 = 0.
Proof.
  induction n as [|n IH]; [reflexivity|].
  cbn [repeat]. destruct n; [reflexivity|]. exact IH.
Qed.

Lemma slice_head (a : array) (i n : nat) :
  (i < length a)%nat -> (0 < n)%nat ->
  exists rest, slice a i n = nth i a 0 :: rest.
Proof.
  intros Hi Hn. unfold slice.
  destruct n as [|n]; [lia|].
  destruct (skipn i a) as [|h t] eqn:E.
  - pose proof (length_skipn i a) as L. rewrite E in L. simpl in L. lia.
  - cbn [firstn]. exists (firstn n t). f_equal.
    rewrite <- (Nat.add_0_r i) at 1. rewrite <- nth_skipn, E. reflexivity.
Qed.

(** What a stage writes: every block is [allpass] of the same block of its
    input, at the frequency of the block start. *)
Lemma univibe_stage_blockwise (lfo : array) (depth : R) (y : array) (base : R) :
  exists z,
    ChainHendrix.univibe_stage lfo depth y base = Ok z /\
    length z = length y /\
    forall n, (n < length y)%nat ->
      nth n z 0 =
      block_value ChainHendrix.univibe_blk y
        (fun i seg => ChainHendrix.allpass seg (ChainHendrix.univibe_fc lfo base i) depth)
        n.
Proof.
  unfold ChainHendrix.univibe_stage.
  apply (blockwise_for_each ChainHendrix.univibe_blk
           ltac:(unfold ChainHendrix.univibe_blk; lia) y
           (fun i seg => ChainHendrix.allpass seg (ChainHendrix.univibe_fc lfo base i) depth)).
  intros i seg. apply length_allpass.
Qed.

Lemma univibe_stage_blocks (lfo : array) (depth : R) (y : array) (base : R) :
  exists z,
    ChainHendrix.univibe_stage lfo depth y base = Ok z /\
    length z = length y /\
    forall k, let i := (k * ChainHendrix.univibe_blk)%nat in
      (i < length y)%nat ->
      slice z i ChainHendrix.univibe_blk =
        ChainHendrix.allpass (slice y i ChainHendrix.univibe_blk)
          (ChainHendrix.univibe_fc lfo base i) depth /\
      nth i z 0 =
        let a := ChainHendrix.allpass_coeff (ChainHendrix.univibe_fc lfo base i) in
        (1 - depth) * nth i y 0 + depth * (- a * nth i y 0 + 0 + a * 0).
Proof.
  destruct (univibe_stage_blockwise lfo depth y base) as (z & Hrun & Hlen & Hnth).
  exists z. split; [exact Hrun|]. split; [exact Hlen|].
  intros k i Hi.
  assert (Hb : (0 < ChainHendrix.univibe_blk)%nat)
    by (unfold ChainHendrix.univibe_blk; lia).
  set (blk := ChainHendrix.univibe_blk) in *.
  assert (Hblock : forall j, (j < blk)%nat -> (i + j < length y)%nat ->
            nth (i + j) z 0 =
            nth j (ChainHendrix.allpass (slice y i blk)
                     (ChainHendrix.univibe_fc lfo base i) depth) 0).
  { intros j Hj Hij. rewrite (Hnth _ Hij). unfold block_value.
    destruct (block_of_index blk k (i + j)) as [Hq Hr]; [unfold i; lia | unfold i; nia|].
    rewrite Hq, Hr. fold i. f_equal. lia. }
  split.
  - apply array_ext.
    + rewrite length_allpass, !length_slice, Hlen. reflexivity.
    + intros j Hj. rewrite length_slice, Hlen in Hj.
      rewrite nth_slice by lia. apply Hblock; lia.
  - specialize (Hblock 0%nat Hb ltac:(lia)). rewrite Nat.add_0_r in Hblock.
    rewrite Hblock.
    destruct (slice_head y i blk Hi Hb) as [rest ->].
    reflexivity.
Qed.

Lemma nth_map_in (f : R -> R) (l : array) (i : nat) :
  (i < length l)%nat -> nth i (map f l) 0 = f (nth i l 0).
Proof.
  intros H. rewrite (nth_indep (map f l) 0 (f 0)) by (rewrite length_map; lia).
  apply map_nth.
Qed.

Lemma length_time_axis (n : nat) : length (ChainHendrix.time_axis n) = n.
Proof.
  unfold ChainHendrix.time_axis, arange. now rewrite !length_map, length_seq.
Qed.

Lemma univibe_lfo_range (n : nat) (rate_hz : R) (i : nat) :
  (i < n)%nat -> 0.2 <= nth i (ChainHendrix.univibe_lfo n rate_hz) 0 <= 1.
Proof.
  intros H. unfold ChainHendrix.univibe_lfo.
  rewrite nth_map_in by (rewrite length_time_axis; exact H).
  match goal with |- context [sin ?t] => pose proof (SIN_bound t) end. lra.
Qed.

Lemma allpass_coeff_range (fc : R) :
  0 < fc < 24000 -> 0 <= ChainHendrix.allpass_coeff fc < 1.
Proof.
  intros [H1 H2]. unfold ChainHendrix.allpass_coeff, SR.
  pose proof PI_RGT_0 as Hpi.
  set (w0 := 2 * PI * fc / 48000).
  assert (Hw : 0 < w0 < PI) by (unfold w0; split; nra).
  pose proof (sin_gt_0 w0 (proj1 Hw) (proj2 Hw)) as Hs.
  pose proof (SIN_bound w0) as [_ Hs1].
  assert (Hd : 0 < 1 + sin w0) by lra.
  split.
  - apply Rmult_le_pos; [lra | apply Rlt_le, Rinv_0_lt_compat, Hd].
  - apply (Rmult_lt_reg_r (1 + sin w0)); [exact Hd|].
    unfold Rdiv. rewrite Rmult_assoc, Rinv_l by lra. lra.
Qed.

(** C2, as the code has it: in every stage each block is filtered by a call
    of [allpass] of its own, and the first output sample of the block that
    starts at [i = 128*k] is computed from [xm1 = 0] and [ym1 = 0], for
    [k = 0] and for [k >= 1] alike. *)
Theorem univibe_stage_block_starts_from_zero (lfo : array) (depth : R)
    (y : array) (base : R) :
  exists z,
    ChainHendrix.univibe_stage lfo depth y base = Ok z /\
    length z = length y /\
    forall k, let i := (k * ChainHendrix.univibe_blk)%nat in
      (i < length y)%nat ->
      slice z i ChainHendrix.univibe_blk =
        ChainHendrix.allpass (slice y i ChainHendrix.univibe_blk)
          (ChainHendrix.univibe_fc lfo base i) depth /\
      nth i z 0 =
        let a := ChainHendrix.allpass_coeff (ChainHendrix.univibe_fc lfo base i) in
        (1 - depth) * nth i y 0 + depth * (- a * nth i y 0 + 0 + a * 0).
Proof. exact (univibe_stage_blocks lfo depth y base). Qed.

(** C2 fails as stated: on [late_click], first stage (base 220 Hz, rate
    4 Hz, depth 0.9), the block that starts at 128 begins with the sample 0,
    while the state carried over from the click at 127 would make it
    positive. *)
Lemma univibe_stage_state_not_carried :
  exists z,
    ChainHendrix.univibe_stage (ChainHendrix.univibe_lfo 129 4) 0.9 late_click 220
      = Ok z /\
    nth 128 z 0 = 0 /\
    0 < carried_block_start (ChainHendrix.univibe_lfo 129 4) 0.9 late_click 220 128 /\
    nth 128 z 0 <>
      carried_block_start (ChainHendrix.univibe_lfo 129 4) 0.9 late_click 220 128.
Proof.
  set (lfo := ChainHendrix.univibe_lfo 129 4).
  destruct (univibe_stage_blocks lfo 0.9 late_click 220) as (z & Hrun & Hlen & Hblk).
  exists z. split; [exact Hrun|].
  assert (Hz : nth 128 z 0 = 0).
  { destruct (Hblk 1%nat) as [_ H]; [unfold late_click; simpl; lia|].
    change (1 * ChainHendrix.univibe_blk)%nat with 128%nat in H.
    rewrite H. change (nth 128 late_click 0) with 0. cbv zeta. lra. }
  assert (Hc : 0 < carried_block_start lfo 0.9 late_click 220 128).
  { unfold carried_block_start.
    change (ChainHendrix.univibe_blk - 1)%nat with 127%nat.
    change (128 - ChainHendrix.univibe_blk)%nat with 0%nat.
    change (128 - 1)%nat with 127%nat.
    change (nth 128 late_click 0) with 0.
    change (nth 127 late_click 0) with 1.
    change (slice late_click 0 ChainHendrix.univibe_blk) with (repeat 0 127 ++ [1]).
    unfold ChainHendrix.allpass_out.
    rewrite allpass_loop_app, allpass_loop_silence, last_repeat_zero.
    rewrite app_nth2 by (rewrite repeat_length; lia).
    rewrite repeat_length. change (127 - 127)%nat with 0%nat.
    cbn [ChainHendrix.allpass_loop nth].
    assert (Hfc : forall i, (i < 129)%nat ->
              0 < ChainHendrix.univibe_fc lfo 220 i < 24000).
    { intros i Hi. unfold ChainHendrix.univibe_fc.
      pose proof (univibe_lfo_range 129 4 i Hi). fold lfo in H. lra. }
    pose proof (allpass_coeff_range _ (Hfc 0%nat ltac:(lia))) as H0.
    pose proof (allpass_coeff_range _ (Hfc 128%nat ltac:(lia))) as H1.
    cbv zeta. nra. }
  repeat split; [exact Hz | exact Hc | rewrite Hz; lra].
Qed.

(** ** Octave-up on silence *)

Lemma fold_left_Rmax_repeat (c : R) (n : nat) :
  fold_left Rmax (repeat c n) c = c.
Proof.
  induction n as [|n IH]; [reflexivity|].
  cbn [repeat fold_left]. rewrite Rmax_left by lra. exact IH.
Qed.

Lemma norm_constant (c : R) (n : nat) :
  (0 < n)%nat ->
  ChainHendrix.norm (repeat c n) = Ok (repeat (c / (Rabs c + 1e-12)) n).
Proof.
  intros H. unfold ChainHendrix.norm. rewrite map_repeat.
  destruct n as [|n]; [lia|].
  cbn [repeat max]. rewrite fold_left_Rmax_repeat. cbn [bind map].
  now rewrite map_repeat.
Qed.

Lemma quotient_gt (a b l : R) : 0 < b -> l * b < a -> l < a / b.
Proof.
  intros Hb H. apply (Rmult_lt_reg_r b); [exact Hb|].
  unfold Rdiv. rewrite Rmult_assoc, Rinv_l by lra. lra.
Qed.

Lemma quotient_lt (a b u : R) : 0 < b -> a < u * b -> a / b < u.
Proof.
  intros Hb H. apply (Rmult_lt_reg_r b); [exact Hb|].
  unfold Rdiv. rewrite Rmult_assoc, Rinv_l by lra. lra.
Qed.

Lemma tanh_minus_06_bounds : -1 < tanh (-0.6) < -0.3.
Proof.
  replace (-0.6) with (Ropp 0.6) by lra.
  unfold tanh, sinh, cosh.
  rewrite Ropp_involutive, exp_Ropp.
  pose proof (exp_ineq1_le 0.6) as Hlo.
  pose proof (exp_ineq1_le (Ropp 0.6)) as Hhi. rewrite exp_Ropp in Hhi.
  pose proof (exp_pos 0.6) as Hpos.
  set (e := exp 0.6) in *.
  assert (Hinv : 0 < / e) by (apply Rinv_0_lt_compat; exact Hpos).
  assert (He : e * / e = 1) by (apply Rinv_r; lra).
  split.
  - apply quotient_gt; lra.
  - apply quotient_lt; [lra | nra].
Qed.

(** C10: on a silent buffer of any positive length [octavia] returns a
    constant buffer; every sample is [tanh(-0.6)/(|tanh(-0.6)| + 1e-12)],
    which lies above -1 and within 1e-11 of it. *)
Theorem octavia_silence (n : nat) :
  (0 < n)%nat ->
  ChainHendrix.octavia (repeat 0 n)
    = Ok (repeat (tanh (-0.6) / (Rabs (tanh (-0.6)) + 1e-12)) n) /\
  HendrixLab.octavia (repeat 0 n) = ChainHendrix.octavia (repeat 0 n) /\
  -1 < tanh (-0.6) / (Rabs (tanh (-0.6)) + 1e-12) < -1 + 1e-11.
Proof.
  intros H. split; [|split; [reflexivity|]].
  - unfold ChainHendrix.octavia. rewrite !map_repeat, Rabs_R0.
    replace (6 * (0 - 0.1)) with (-0.6) by lra.
    apply norm_constant, H.
  - destruct tanh_minus_06_bounds as [H1 H2].
    rewrite (Rabs_left (tanh (-0.6))) by lra.
    set (t := tanh (-0.6)) in *.
    assert (Hd : 0 < - t + 1e-12) by lra.
    split.
    + apply quotient_gt; lra.
    + apply quotient_lt; [lra | nra].
Qed.

Lemma octavia_silence_witness :
  ChainHendrix.octavia (repeat 0 4)
    = Ok (repeat (tanh (-0.6) / (Rabs (tanh (-0.6)) + 1e-12)) 4) /\
  HendrixLab.octavia (repeat 0 4) = ChainHendrix.octavia (repeat 0 4) /\
  -1 < tanh (-0.6) / (Rabs (tanh (-0.6)) + 1e-12) < -1 + 1e-11.
Proof. apply (octavia_silence 4). lia. Defined.

(** ** The auto-wah *)

Lemma range_step_lt (n step i : nat) :
  (0 < step)%nat -> In i (range_step n step) -> (i < n)%nat.
Proof.
  intros Hs Hin. unfold range_step in Hin.
  apply in_map_iff in Hin. destruct Hin as (k & <- & Hk).
  apply in_seq in Hk.
  pose proof (Nat.div_mod_eq (n + step - 1) step) as E.
  pose proof (Nat.mod_upper_bound (n + step - 1) step ltac:(lia)) as U.
  nia.
Qed.

Lemma range_step_first (n step : nat) :
  (0 < n)%nat -> (0 < step)%nat ->
  exists rest, range_step n step = 0%nat :: rest.
Proof.
  intros Hn Hs. unfold range_step.
  assert (H : (0 < (n + step - 1) / step)%nat) by (apply Nat.div_str_pos; lia).
  destruct ((n + step - 1) / step)%nat as [|m]; [lia|].
  cbn [seq map]. eauto.
Qed.

Lemma for_each_ext_in {S N : Type} (f g : S -> N -> result S) (ns : list N) :
  (forall s n, In n ns -> f s n = g s n) ->
  forall s, for_each f ns s = for_each g ns s.
Proof.
  induction ns as [|n ns IH]; intros H s; [reflexivity|].
  cbn [for_each]. rewrite (H s n (or_introl eq_refl)).
  destruct (g s n) as [s'|e]; cbn [bind]; [|reflexivity].
  apply IH. intros s0 n0 Hin. apply H. now right.
Qed.

Lemma block_slice (blk : nat) (y z : array) (g : nat -> array -> array) (k : nat) :
  (0 < blk)%nat ->
  (forall i seg, length (g i seg) = length seg) ->
  length z = length y ->
  (forall n, (n < length y)%nat -> nth n z 0 = block_value blk y g n) ->
  slice z (k * blk) blk = g (k * blk)%nat (slice y (k * blk) blk).
Proof.
  intros Hb Hg Hlen Hnth. apply array_ext.
  - rewrite Hg, !length_slice, Hlen. reflexivity.
  - intros j Hj. rewrite length_slice, Hlen in Hj.
    rewrite nth_slice by lia. rewrite Hnth by lia. unfold block_value.
    destruct (block_of_index blk k (k * blk + j)) as [Hq Hr]; [lia | nia|].
    rewrite Hq, Hr. f_equal. lia.
Qed.

Section Wah.

Variable sos : Type.
Variable butter_design : nat -> R -> R -> sos.
Variable sosfilt : sos -> array -> array.
Hypothesis sosfilt_length : forall flt seg, length (sosfilt flt seg) = length seg.

(** For a positive [q] and a centre frequency between the two clamps, the
    band handed to [butter] is one it accepts. *)
Lemma bandpass_sos_designs (fc q : R) :
  0 < q -> 30 <= fc <= SR / 2 - 100 ->
  ChainHendrix.bandpass_sos sos butter_design fc q
  = Ok (butter_design 2%nat
          (Rmax 30 (fc - fc / q / 2) / (SR / 2))
          (Rmin (SR / 2 - 100) (fc + fc / q / 2) / (SR / 2))).
Proof.
  intros Hq Hfc. unfold ChainHendrix.bandpass_sos, truediv.
  destruct (Req_dec_T q 0) as [E|_]; [lra|]. cbn [bind].
  assert (Hb : 0 < fc / q) by (apply Rdiv_lt_0_compat; unfold SR in *; lra).
  set (b := fc / q) in *.
  assert (Hlo : 30 <= Rmax 30 (fc - b / 2)) by apply Rmax_l.
  assert (Hhi : Rmin (SR / 2 - 100) (fc + b / 2) <= SR / 2 - 100) by apply Rmin_l.
  assert (Hlh : Rmax 30 (fc - b / 2) < Rmin (SR / 2 - 100) (fc + b / 2)).
  { unfold Rmax, Rmin, SR in *. repeat destruct Rle_dec; lra. }
  set (lo := Rmax 30 (fc - b / 2)) in *.
  set (hi := Rmin (SR / 2 - 100) (fc + b / 2)) in *.
  unfold ChainHendrix.butter, SR in *.
  destruct (Rlt_dec 0 (lo / (48000 / 2))) as [_|N]; [|exfalso; apply N; lra].
  destruct (Rlt_dec 0 (hi / (48000 / 2))) as [_|N]; [|exfalso; apply N; lra].
  destruct (Rlt_dec (lo / (48000 / 2)) (hi / (48000 / 2))) as [_|N];
    [|exfalso; apply N; lra].
  destruct (Rlt_dec (hi / (48000 / 2)) 1) as [_|N];
    [reflexivity | exfalso; apply N; lra].
Qed.

Lemma wah_centers_between (n : nat) (f_lo f_hi rate_hz : R) (i : nat) :
  f_lo <= f_hi -> (i < n)%nat ->
  f_lo <= nth i (ChainHendrix.wah_centers n f_lo f_hi rate_hz) 0 <= f_hi.
Proof.
  intros Hf Hi. unfold ChainHendrix.wah_centers.
  rewrite nth_map_in by (rewrite length_time_axis; exact Hi).
  match goal with |- context [sin ?t] => pose proof (SIN_bound t) end. nra.
Qed.

Lemma wah_centers_rate_zero (n : nat) (f_lo f_hi : R) (i : nat) :
  (i < n)%nat ->
  nth i (ChainHendrix.wah_centers n f_lo f_hi 0) 0 = f_lo + 0.5 * (f_hi - f_lo).
Proof.
  intros H. unfold ChainHendrix.wah_centers.
  rewrite nth_map_in by (rewrite length_time_axis; exact H).
  match goal with |- context [sin ?t] => replace t with 0 by ring end.
  rewrite sin_0. lra.
Qed.

Lemma wah_block_length (centers : array) (q : R) (i : nat) (seg : array) :
  length (wah_block sos butter_design sosfilt centers q i seg) = length seg.
Proof.
  unfold wah_block.
  destruct (ChainHendrix.bandpass_sos _ _ _ _); [apply sosfilt_length | reflexivity].
Qed.

(** When the filter design succeeds at every block start, the loop runs to
    its end and every output sample is the one of its block, filtered
    alone. *)
Lemma wah_loop_blockwise (x : array) (f_lo f_hi rate_hz q : R) :
  (forall i, (i < length x)%nat ->
     exists flt,
       ChainHendrix.bandpass_sos sos butter_design
         (nth i (ChainHendrix.wah_centers (length x) f_lo f_hi rate_hz) 0) q
       = Ok flt) ->
  exists y,
    ChainHendrix.wah_loop sos butter_design sosfilt x f_lo f_hi rate_hz q = Ok y /\
    length y = length x /\
    forall n, (n < length x)%nat ->
      nth n y 0 =
      block_value ChainHendrix.wah_blk x
        (wah_block sos butter_design sosfilt
           (ChainHendrix.wah_centers (length x) f_lo f_hi rate_hz) q) n.
Proof.
  intros Hd. unfold ChainHendrix.wah_loop.
  rewrite (for_each_ext_in _
             (fun z i => set_slice z i ChainHendrix.wah_blk
                (wah_block sos butter_design sosfilt
                   (ChainHendrix.wah_centers (length x) f_lo f_hi rate_hz) q i
                   (slice x i ChainHendrix.wah_blk)))).
  - apply (blockwise_for_each ChainHendrix.wah_blk
             ltac:(unfold ChainHendrix.wah_blk; lia) x).
    intros i seg. apply wah_block_length.
  - intros z i Hi.
    apply (range_step_lt _ ChainHendrix.wah_blk) in Hi;
      [|unfold ChainHendrix.wah_blk; lia].
    destruct (Hd i Hi) as [flt Hflt].
    unfold ChainHendrix.wah_step, wah_block. rewrite Hflt. reflexivity.
Qed.

(** A design that raises at the first block ends the loop there. *)
Lemma wah_loop_first_design_raises (x : array) (f_lo f_hi rate_hz q : R) (e : exn) :
  x <> [] ->
  ChainHendrix.bandpass_sos sos butter_design
    (nth 0 (ChainHendrix.wah_centers (length x) f_lo f_hi rate_hz) 0) q = Raise e ->
  ChainHendrix.wah_loop sos butter_design sosfilt x f_lo f_hi rate_hz q = Raise e.
Proof.
  intros Hx He. apply nonempty_length in Hx. unfold ChainHendrix.wah_loop.
  destruct (range_step_first (length x) ChainHendrix.wah_blk Hx
              ltac:(unfold ChainHendrix.wah_blk; lia)) as [rest ->].
  cbn [for_each]. unfold ChainHendrix.wah_step at 1. rewrite He. reflexivity.
Qed.

(** The block of the output that starts at [k*256], once the loop is done. *)
Lemma wah_block_filtered (x y : array) (centers : array) (q : R) (k : nat)
    (flt : sos) :
  length y = length x ->
  (forall n, (n < length x)%nat ->
     nth n y 0 =
     block_value ChainHendrix.wah_blk x
       (wah_block sos butter_design sosfilt centers q) n) ->
  ((k * ChainHendrix.wah_blk < length x)%nat ->
   ChainHendrix.bandpass_sos sos butter_design
     (nth (k * ChainHendrix.wah_blk) centers 0) q = Ok flt) ->
  slice y (k * ChainHendrix.wah_blk) ChainHendrix.wah_blk
  = sosfilt flt (slice x (k * ChainHendrix.wah_blk) ChainHendrix.wah_blk).
Proof.
  intros Hlen Hnth Hflt.
  destruct (lt_dec (k * ChainHendrix.wah_blk) (length x)) as [Hk|Hk].
  - rewrite (block_slice ChainHendrix.wah_blk x y
               (wah_block sos butter_design sosfilt centers q) k);
      auto using wah_block_length.
    + unfold wah_block. now rewrite (Hflt Hk).
    + unfold ChainHendrix.wah_blk. lia.
  - assert (E1 : slice y (k * ChainHendrix.wah_blk) ChainHendrix.wah_blk = []).
    { apply length_zero_iff_nil. rewrite length_slice. lia. }
    assert (E2 : slice x (k * ChainHendrix.wah_blk) ChainHendrix.wah_blk = []).
    { apply length_zero_iff_nil. rewrite length_slice. lia. }
    rewrite E1, E2. symmetry. apply length_zero_iff_nil.
    now rewrite sosfilt_length.
Qed.

End Wah.

(** C7: with [rate_hz = 0] every entry of [centers] is the frequency
    [c = f_lo + 0.5*(f_hi - f_lo)], so every block start hands [c] to
    [bandpass_sos]. Where [bandpass_sos(c, q)] returns a filter, the loop of
    [wah_auto] runs to its end and every block of 256 samples of its output
    is [sosfilt] of the same block of the input with that one filter; where
    [bandpass_sos(c, q)] raises, [wah_auto] on a signal that is not empty
    raises the same exception. [sosfilt] is any filter routine that returns
    as many samples as it is given. *)
Theorem wah_rate_zero_constant_center (sos : Type)
    (butter_design : nat -> R -> R -> sos) (sosfilt : sos -> array -> array)
    (x : array) (f_lo f_hi q : R) :
  (forall flt seg, length (sosfilt flt seg) = length seg) ->
  let c := f_lo + 0.5 * (f_hi - f_lo) in
  (forall i, (i < length x)%nat ->
     nth i (ChainHendrix.wah_centers (length x) f_lo f_hi 0) 0 = c) /\
  (forall flt,
     ChainHendrix.bandpass_sos sos butter_design c q = Ok flt ->
     exists y,
       ChainHendrix.wah_loop sos butter_design sosfilt x f_lo f_hi 0 q = Ok y /\
       ChainHendrix.wah_auto sos butter_design sosfilt x f_lo f_hi 0 q
         = ChainHendrix.norm y /\
       length y = length x /\
       forall k, let i := (k * ChainHendrix.wah_blk)%nat in
         slice y i ChainHendrix.wah_blk
         = sosfilt flt (slice x i ChainHendrix.wah_blk)) /\
  (forall e,
     x <> [] ->
     ChainHendrix.bandpass_sos sos butter_design c q = Raise e ->
     ChainHendrix.wah_auto sos butter_design sosfilt x f_lo f_hi 0 q = Raise e).
Proof.
  intros Hlen c.
  assert (Hc : forall i, (i < length x)%nat ->
            nth i (ChainHendrix.wah_centers (length x) f_lo f_hi 0) 0 = c).
  { intros i Hi. now apply wah_centers_rate_zero. }
  split; [exact Hc|]. split.
  - intros flt Hflt.
    destruct (wah_loop_blockwise sos butter_design sosfilt Hlen x f_lo f_hi 0 q)
      as (y & Hrun & Hy & Hnth).
    { intros i Hi. exists flt. now rewrite (Hc i Hi). }
    exists y. split; [exact Hrun|].
    split; [unfold ChainHendrix.wah_auto; now rewrite Hrun|].
    split; [exact Hy|].
    intros k i. unfold i.
    apply (wah_block_filtered sos butter_design sosfilt Hlen x y
             (ChainHendrix.wah_centers (length x) f_lo f_hi 0) q k flt Hy Hnth).
    intros Hk. now rewrite (Hc _ Hk).
  - intros e Hx He. unfold ChainHendrix.wah_auto.
    rewrite (wah_loop_first_design_raises sos butter_design sosfilt x f_lo f_hi 0 q e Hx);
      [reflexivity|].
    rewrite Hc by (apply nonempty_length; exact Hx). exact He.
Qed.

Lemma wah_rate_zero_constant_center_witness :
  exists y,
    ChainHendrix.wah_loop unit (fun _ _ _ => tt) (fun _ seg => map (Rmult 2) seg)
      [1; -2; 0.5] 350 2000 0 2.5 = Ok y /\
    ChainHendrix.wah_auto unit (fun _ _ _ => tt) (fun _ seg => map (Rmult 2) seg)
      [1; -2; 0.5] 350 2000 0 2.5 = ChainHendrix.norm y /\
    length y = length [1; -2; 0.5] /\
    forall k, let i := (k * ChainHendrix.wah_blk)%nat in
      slice y i ChainHendrix.wah_blk
      = map (Rmult 2) (slice [1; -2; 0.5] i ChainHendrix.wah_blk).
Proof.
  destruct (wah_rate_zero_constant_center unit (fun _ _ _ => tt)
              (fun _ seg => map (Rmult 2) seg) [1; -2; 0.5] 350 2000 2.5)
    as (_ & Hrun & _).
  - intros flt seg. apply length_map.
  - apply (Hrun tt).
    rewrite (bandpass_sos_designs unit (fun _ _ _ => tt)); [reflexivity | lra |].
    unfold SR. lra.
Defined.

(** ** Every effect ends in [norm] *)

Lemma shaped_norm (x pre : array) :
  length pre = length x -> x <> [] -> shaped x (ChainHendrix.norm pre).
Proof.
  intros Hl Hx. apply nonempty_length in Hx.
  destruct (norm_peak pre) as (y & Hy & Hlen & Hp).
  { apply nonempty_length. lia. }
  exists y. split; [exact Hy|]. split; [congruence | exact Hp].
Qed.

Lemma length_lp_loop (alpha prev : R) (xs : array) :
  length (ChainHendrix.lp_loop alpha prev xs) = length xs.
Proof.
  revert prev. induction xs as [|h t IH]; intros prev; simpl; auto.
Qed.

(** For a cutoff other than 0 neither division raises, and the filter runs
    with [alpha = exp(-1/(SR*rc))]. *)
Lemma lp_pre_emphasis_runs (x : array) (fc : R) :
  fc <> 0 ->
  ChainHendrix.lp_pre_emphasis x fc
  = Ok match x with
       | [] => []
       | x0 :: rest =>
           x0 :: ChainHendrix.lp_loop (exp (- 1 / (SR * (1 / (2 * PI * fc)))))
                   x0 rest
       end.
Proof.
  intros Hfc. pose proof PI_RGT_0 as Hpi.
  unfold ChainHendrix.lp_pre_emphasis, truediv.
  destruct (Req_dec_T (2 * PI * fc) 0) as [E|N].
  - exfalso. apply Rmult_integral in E. destruct E as [E|E]; [lra | contradiction].
  - cbn [bind].
    destruct (Req_dec_T (SR * (1 / (2 * PI * fc))) 0) as [E|_]; [|reflexivity].
    exfalso. apply Rmult_integral in E.
    destruct E as [E|E]; [unfold SR in E; lra|].
    unfold Rdiv in E. rewrite Rmult_1_l in E.
    revert E. apply Rinv_neq_0_compat, N.
Qed.

Lemma lp_pre_emphasis_length (x y : array) (fc : R) :
  ChainHendrix.lp_pre_emphasis x fc = Ok y -> length y = length x.
Proof.
  unfold ChainHendrix.lp_pre_emphasis.
  destruct (truediv 1 (2 * PI * fc)) as [rc|e]; cbn [bind]; [|discriminate].
  destruct (truediv (- 1) (SR * rc)) as [v|e]; cbn [bind]; [|discriminate].
  intros [= <-]. destruct x as [|h t]; [reflexivity|].
  cbn [length]. now rewrite length_lp_loop.
Qed.

Lemma length_cumsum (a : array) : length (cumsum a) = length a.
Proof.
  unfold cumsum. generalize 0. induction a as [|h t IH]; intros acc; simpl; auto.
Qed.

Lemma univibe_stages_run (lfo : array) (depth : R) (bases : list R) :
  forall y, exists z,
    for_each (ChainHendrix.univibe_stage lfo depth) bases y = Ok z /\
    length z = length y.
Proof.
  induction bases as [|base bases IH]; intros y.
  - exists y. auto.
  - cbn [for_each].
    destruct (univibe_stage_blockwise lfo depth y base) as (z1 & Hrun & Hlen & _).
    rewrite Hrun. cbn [bind].
    destruct (IH z1) as (z & Hz & Hl). exists z. split; [exact Hz | congruence].
Qed.

Lemma length_range_step_pos (n step : nat) :
  (0 < n)%nat -> (0 < step)%nat -> (0 < length (range_step n step))%nat.
Proof.
  intros Hn Hs. unfold range_step. rewrite length_map, length_seq.
  apply Nat.div_str_pos. lia.
Qed.

Lemma fuzz_shaped (x : array) (drive hard : R) :
  x <> [] -> shaped x (ChainHendrix.fuzz x drive hard).
Proof.
  intros Hx. unfold ChainHendrix.fuzz.
  rewrite lp_pre_emphasis_runs by lra. cbn [bind].
  apply shaped_norm; [|exact Hx].
  rewrite length_map2, !length_map.
  destruct x as [|h t]; [reflexivity|]. cbn [length]. rewrite length_lp_loop. lia.
Qed.

Lemma wah_shaped (sos : Type) (butter_design : nat -> R -> R -> sos)
    (sosfilt : sos -> array -> array) (x : array) (f_lo f_hi rate_hz q : R) :
  (forall flt seg, length (sosfilt flt seg) = length seg) ->
  x <> [] ->
  0 < q -> 30 <= f_lo -> f_lo <= f_hi -> f_hi <= SR / 2 - 100 ->
  shaped x (ChainHendrix.wah_auto sos butter_design sosfilt x f_lo f_hi rate_hz q).
Proof.
  intros Hlen Hx Hq H1 H2 H3. unfold ChainHendrix.wah_auto.
  destruct (wah_loop_blockwise sos butter_design sosfilt Hlen x f_lo f_hi rate_hz q)
    as (y & Hrun & Hy & _).
  { intros i Hi. eexists. apply bandpass_sos_designs; [exact Hq|].
    pose proof (wah_centers_between (length x) f_lo f_hi rate_hz i H2 Hi). lra. }
  rewrite Hrun. cbn [bind]. now apply shaped_norm.
Qed.

Lemma univibe_shaped (x : array) (rate_hz depth : R) :
  x <> [] -> shaped x (ChainHendrix.univibe x rate_hz depth).
Proof.
  intros Hx. unfold ChainHendrix.univibe.
  destruct (univibe_stages_run (ChainHendrix.univibe_lfo (length x) rate_hz) depth
              [220; 440; 700; 1100] x) as (y & Hrun & Hy).
  rewrite Hrun. cbn [bind]. apply shaped_norm; [|exact Hx].
  rewrite length_map2, length_map, length_time_axis. lia.
Qed.

Lemma octavia_shaped (x : array) :
  x <> [] -> shaped x (ChainHendrix.octavia x).
Proof.
  intros Hx. unfold ChainHendrix.octavia. apply shaped_norm; [|exact Hx].
  now rewrite !length_map.
Qed.

Lemma leslie_shaped (x : array) (rate_hz dev_hz am_depth : R) :
  x <> [] -> shaped x (ChainHendrix.leslie x rate_hz dev_hz am_depth).
Proof.
  intros Hx. unfold ChainHendrix.leslie. apply shaped_norm; [|exact Hx].
  rewrite !length_map2, !length_map, length_cumsum, !length_map, !length_time_axis.
  lia.
Qed.

Lemma leslie_fft_shaped (unwrapped_phase : array -> array) (x : array)
    (rate_hz dev_hz am_depth : R) :
  (forall a, length (unwrapped_phase a) = length a) ->
  x <> [] ->
  shaped x (HendrixLab.leslie unwrapped_phase x rate_hz dev_hz am_depth).
Proof.
  intros Hp Hx. unfold HendrixLab.leslie. apply shaped_norm; [|exact Hx].
  rewrite !length_map2, Hp, !length_map, length_cumsum, !length_map,
    !length_time_axis.
  lia.
Qed.

Lemma tape_echo_shaped (x : array) (delay_ms feedback hf_loss : R) :
  x <> [] -> (0 <= EchoIr.delay_samples delay_ms)%Z ->
  shaped x (ChainHendrix.tape_echo x delay_ms feedback hf_loss).
Proof.
  intros Hx Hd. unfold ChainHendrix.tape_echo.
  destruct (tape_echo_nat x delay_ms feedback hf_loss
              (Z.to_nat (EchoIr.delay_samples delay_ms)) ltac:(lia))
    as (y & Hrun & Hlen & _).
  rewrite Hrun. cbn [bind]. now apply shaped_norm.
Qed.

Lemma bitcrush_runs (x : array) (bits downsample : nat) :
  x <> [] -> (0 < downsample)%nat ->
  exists y,
    HendrixLab.bitcrush x bits downsample = Ok y /\
    length y = ((length x + downsample - 1) / downsample)%nat /\
    y <> [] /\
    peak_le 1 y.
Proof.
  intros Hx Hd. unfold HendrixLab.bitcrush, stride.
  destruct downsample as [|ds]; [lia|]. cbn [bind].
  set (picked := map _ (range_step _ _)).
  assert (Hp : length picked = ((length x + S ds - 1) / S ds)%nat).
  { unfold picked, range_step. now rewrite !length_map, length_seq. }
  assert (Hpos : (0 < (length x + S ds - 1) / S ds)%nat).
  { apply Nat.div_str_pos. apply nonempty_length in Hx. lia. }
  destruct (norm_peak picked) as (y & Hy & Hlen & Hpk).
  { apply nonempty_length. lia. }
  exists y. split; [exact Hy|]. split; [congruence|].
  split; [apply nonempty_length; lia | exact Hpk].
Qed.

Lemma float_max_above : 10 ^ 300 <= float_max.
Proof.
  unfold float_max.
  assert (H1 : 10 ^ 300 <= 2 ^ 1023).
  { rewrite !pow_IZR. apply IZR_le. apply Zle_bool_imp_le. vm_compute. reflexivity. }
  assert (H2 : 0 < / 2 ^ 52 <= / 2).
  { split; [apply Rinv_0_lt_compat, pow_lt; lra|].
    apply Rinv_le_contravar; [lra|].
    rewrite <- (pow_1 2) at 1. apply Rle_pow; [lra | lia]. }
  assert (H3 : 0 < 2 ^ 1023) by (apply pow_lt; lra).
  nra.
Qed.

(** A gain of up to 6000 dB is a float. *)
Lemma power_10_fits (e : R) : e <= 300 -> power 10 e = Ok (Rpower 10 e).
Proof.
  intros He. unfold power.
  destruct (Rle_dec (Rpower 10 e) float_max) as [_|N]; [reflexivity|].
  exfalso. apply N.
  apply Rle_trans with (Rpower 10 300); [apply Rle_Rpower; lra|].
  replace 300 with (INR 300) by (rewrite INR_IZR_INZ; reflexivity).
  rewrite Rpower_pow by lra. exact float_max_above.
Qed.

Lemma compressor_shaped (x : array) (drive_db : R) (knee : string) :
  x <> [] -> drive_db <= 6000 ->
  shaped x (HendrixLab.compressor_soft x drive_db knee).
Proof.
  intros Hx Hd. unfold HendrixLab.compressor_soft.
  rewrite power_10_fits by lra. cbn [bind].
  apply shaped_norm; [|exact Hx].
  destruct (String.eqb knee "soft"); now rewrite ?length_map.
Qed.

Lemma hard_clip_shaped (x : array) (th : R) :
  x <> [] -> shaped x (HendrixLab.hard_clip x th).
Proof.
  intros Hx. unfold HendrixLab.hard_clip. apply shaped_norm; [|exact Hx].
  now rewrite length_map.
Qed.

Lemma fuzz_face_shaped (x : array) :
  x <> [] -> shaped x (HendrixLab.fuzz_face_like x).
Proof.
  intros Hx. unfold HendrixLab.fuzz_face_like.
  apply shaped_norm; [|exact Hx].
  rewrite length_map2, !length_map.
  destruct x as [|h t]; [reflexivity|]. cbn [length]. rewrite length_lp_loop. lia.
Qed.

Section Registry.

Variable sos : Type.
Variable butter_design : nat -> R -> R -> sos.
Variable sosfilt : sos -> array -> array.

Lemma registry_cases (ef : string) (f : array -> result array) :
  ChainHendrix.lookup ef (ChainHendrix.EFFECTS sos butter_design sosfilt) = Some f ->
  f = (fun x => ChainHendrix.fuzz x 8 0.45) \/
  f = (fun x => ChainHendrix.wah_auto sos butter_design sosfilt x 350 2000 1.2 2.5) \/
  f = (fun x => ChainHendrix.univibe x 4 0.9) \/
  f = (fun x => ChainHendrix.octavia x) \/
  f = (fun x => ChainHendrix.leslie x 5.5 3 0.5) \/
  f = (fun x => ChainHendrix.tape_echo x 120 0.6 0.75).
Proof.
  unfold ChainHendrix.EFFECTS, ChainHendrix.lookup. intros H.
  repeat match type of H with
         | (if ?c then _ else _) = _ => destruct c
         end;
    try discriminate; injection H as <-; tauto.
Qed.

Hypothesis sosfilt_length : forall flt seg, length (sosfilt flt seg) = length seg.

Lemma registry_shaped (ef : string) (f : array -> result array) (x : array) :
  x <> [] ->
  ChainHendrix.lookup ef (ChainHendrix.EFFECTS sos butter_design sosfilt) = Some f ->
  shaped x (f x).
Proof.
  intros Hx H. apply registry_cases in H.
  destruct H as [->|[->|[->|[->|[->| ->]]]]].
  - now apply fuzz_shaped.
  - apply wah_shaped; auto; unfold SR; lra.
  - now apply univibe_shaped.
  - now apply octavia_shaped.
  - now apply leslie_shaped.
  - apply tape_echo_shaped; [exact Hx|]. rewrite delay_samples_default. lia.
Qed.

End Registry.

(** C5: on every buffer that is not empty each effect returns a buffer of
    the same length (for [bitcrush], one sample for each step of the
    decimation) whose peak absolute value is at most 1. This holds for
    all values of the parameters in their domain: a delay that is not
    negative; a wah with a positive [q] and [30 <= f_lo <= f_hi <= SR/2 - 100];
    at least 2 bits and a positive downsampling step; a compressor drive of
    at most 6000 dB. [sosfilt] is any filter routine and [unwrapped_phase]
    any phase routine that returns as many samples as it is given. *)
Theorem effects_peak_at_most_one (sos : Type)
    (butter_design : nat -> R -> R -> sos) (sosfilt : sos -> array -> array)
    (unwrapped_phase : array -> array) (x : array) :
  (forall flt seg, length (sosfilt flt seg) = length seg) ->
  (forall a, length (unwrapped_phase a) = length a) ->
  x <> [] ->
  (forall drive hard, shaped x (ChainHendrix.fuzz x drive hard)) /\
  shaped x (HendrixLab.fuzz_face_like x) /\
  (forall f_lo f_hi rate_hz q,
     0 < q -> 30 <= f_lo -> f_lo <= f_hi -> f_hi <= SR / 2 - 100 ->
     shaped x (ChainHendrix.wah_auto sos butter_design sosfilt x f_lo f_hi rate_hz q)) /\
  (forall rate_hz depth, shaped x (ChainHendrix.univibe x rate_hz depth)) /\
  shaped x (ChainHendrix.octavia x) /\
  (forall rate_hz dev_hz am_depth,
     shaped x (ChainHendrix.leslie x rate_hz dev_hz am_depth)) /\
  (forall rate_hz dev_hz am_depth,
     shaped x (HendrixLab.leslie unwrapped_phase x rate_hz dev_hz am_depth)) /\
  (forall delay_ms feedback hf_loss,
     (0 <= EchoIr.delay_samples delay_ms)%Z ->
     shaped x (ChainHendrix.tape_echo x delay_ms feedback hf_loss)) /\
  (forall bits downsample,
     (2 <= bits)%nat -> (0 < downsample)%nat ->
     exists y,
       HendrixLab.bitcrush x bits downsample = Ok y /\
       length y = ((length x + downsample - 1) / downsample)%nat /\
       y <> [] /\
       peak_le 1 y) /\
  (forall drive_db knee,
     drive_db <= 6000 -> shaped x (HendrixLab.compressor_soft x drive_db knee)) /\
  (forall th, shaped x (HendrixLab.hard_clip x th)) /\
  (forall ef f,
     ChainHendrix.lookup ef (ChainHendrix.EFFECTS sos butter_design sosfilt) = Some f ->
     shaped x (f x)).
Proof.
  intros Hlen Hphase Hx.
  repeat match goal with |- _ /\ _ => split end; intros.
  - now apply fuzz_shaped.
  - now apply fuzz_face_shaped.
  - now apply wah_shaped.
  - now apply univibe_shaped.
  - now apply octavia_shaped.
  - now apply leslie_shaped.
  - now apply leslie_fft_shaped.
  - now apply tape_echo_shaped.
  - now apply bitcrush_runs.
  - now apply compressor_shaped.
  - now apply hard_clip_shaped.
  - now apply (registry_shaped sos butter_design sosfilt Hlen ef).
Qed.

Lemma effects_peak_at_most_one_witness :
  shaped [1; -2] (ChainHendrix.wah_auto unit (fun _ _ _ => tt)
                    (fun _ seg => map (Rmult 2) seg) [1; -2] 350 2000 1.2 2.5) /\
  shaped [1; -2] (ChainHendrix.tape_echo [1; -2] (1 / 48) 0.6 0.75) /\
  shaped [1; -2] (HendrixLab.compressor_soft [1; -2] 12 "soft") /\
  exists y,
    HendrixLab.bitcrush [1; -2] 8 2 = Ok y /\
    length y = ((length [1; -2]%R + 2 - 1) / 2)%nat /\
    y <> [] /\
    peak_le 1 y.
Proof.
  destruct (effects_peak_at_most_one unit (fun _ _ _ => tt)
              (fun _ seg => map (Rmult 2) seg) (fun a => a) [1; -2]
              (fun _ seg => length_map (Rmult 2) seg) (fun _ => eq_refl)
              ltac:(discriminate))
    as (_ & _ & Hwah & _ & _ & _ & _ & Htape & Hbit & Hcomp & _).
  split; [apply Hwah; unfold SR; lra|]. split.
  - apply Htape. rewrite delay_samples_one. lia.
  - split; [apply Hcomp; lra | apply Hbit; lia].
Defined.

(** C8, on the code: a parameter outside its physical domain is processed,
    not reported. On a signal that is not empty, the tape echo with a
    [delay_ms] that is not positive (above -1/48 ms, so a delay of 0 samples)
    returns the normalised input, and the uni-vibe and the rotating speaker
    with a [rate_hz] that is not positive return a buffer of the length of the
    input, peak at most 1. *)
Theorem out_of_domain_parameters_processed (x : array) :
  x <> [] ->
  (forall delay_ms feedback hf_loss,
     - 1 / 48 < delay_ms <= 0 ->
     ChainHendrix.tape_echo x delay_ms feedback hf_loss = ChainHendrix.norm x /\
     shaped x (ChainHendrix.norm x)) /\
  (forall rate_hz depth,
     rate_hz <= 0 -> shaped x (ChainHendrix.univibe x rate_hz depth)) /\
  (forall rate_hz dev_hz am_depth,
     rate_hz <= 0 -> shaped x (ChainHendrix.leslie x rate_hz dev_hz am_depth)).
Proof.
  intros Hx. split; [|split].
  - intros delay_ms feedback hf_loss [H1 H2].
    split; [|now apply shaped_norm].
    unfold ChainHendrix.tape_echo. rewrite tape_echo_zero_delay; [reflexivity|].
    apply int_small_negative. unfold SR. lra.
  - intros. now apply univibe_shaped.
  - intros. now apply leslie_shaped.
Qed.

Lemma out_of_domain_parameters_processed_witness :
  (ChainHendrix.tape_echo [1; -2] 0 0.6 0.75 = ChainHendrix.norm [1; -2] /\
   shaped [1; -2] (ChainHendrix.norm [1; -2])) /\
  shaped [1; -2] (ChainHendrix.univibe [1; -2] (-4) 0.9) /\
  shaped [1; -2] (ChainHendrix.leslie [1; -2] 0 3 0.5).
Proof.
  destruct (out_of_domain_parameters_processed [1; -2] ltac:(discriminate))
    as (Htape & Hvibe & Hles).
  split; [apply Htape; lra|]. split; [apply Hvibe; lra | apply Hles; lra].
Defined.

(** ** The chain *)

Lemma applied_app (l1 l2 : list event) :
  applied (l1 ++ l2) = (applied l1 ++ applied l2)%list.
Proof. apply flat_map_app. Qed.

Lemma written_app (l1 l2 : list event) :
  written (l1 ++ l2) = (written l1 ++ written l2)%list.
Proof. apply flat_map_app. Qed.

Lemma stems_folder_named (a : ChainHendrix.args) (dir : string) :
  ChainHendrix.stems_folder a = Some dir -> dir <> EmptyString.
Proof.
  unfold ChainHendrix.stems_folder.
  destruct (ChainHendrix.stems a) as [[|c s]|]; congruence.
Qed.

Lemma makedirs_runs (dir : string) (log : list event) :
  dir <> EmptyString -> makedirs dir log = (log ++ [Makedirs dir], Ok tt).
Proof. intros H. destruct dir; [congruence | reflexivity]. Qed.

Lemma save_wav_runs (p : path) (x : array) (log : list event) :
  dirname p <> EmptyString ->
  x <> [] ->
  exists data,
    ChainHendrix.save_wav p x log
      = (log ++ [Makedirs (dirname p); SfWrite p data], Ok tt) /\
    ChainHendrix.norm x = Ok data /\
    length data = length x /\ peak_le 1 data.
Proof.
  intros Hp Hx. destruct (norm_peak x Hx) as (data & Hd & Hl & Hpk).
  exists data. repeat split; auto.
  unfold ChainHendrix.save_wav, io_bind. rewrite (makedirs_runs _ _ Hp).
  unfold emit, lift. rewrite Hd. now rewrite <- app_assoc.
Qed.

Lemma stem_paths_cons (a : ChainHendrix.args) (i : nat) (ef : string)
    (rest : list string) :
  stem_paths a i (ef :: rest) =
  (match ChainHendrix.stems_folder a with
   | Some dir => [join dir (ChainHendrix.stem_name i ef)]
   | None => []
   end ++ stem_paths a (S i) rest)%list.
Proof.
  unfold stem_paths. destruct (ChainHendrix.stems_folder a); reflexivity.
Qed.

(** The first [if args.stems:] on a signal that is not empty. *)
Lemma save_clean_runs (a : ChainHendrix.args) (x : array) (log : list event) :
  x <> [] ->
  exists log1,
    ChainHendrix.save_clean a x log = (log1, Ok tt) /\
    applied log1 = applied log /\
    written log1 = (written log ++ clean_path a)%list.
Proof.
  intros Hx. unfold ChainHendrix.save_clean, clean_path.
  destruct (ChainHendrix.stems_folder a) as [dir|] eqn:Es.
  - pose proof (stems_folder_named a dir Es) as Hdir.
    unfold io_bind. rewrite (makedirs_runs _ _ Hdir).
    destruct (save_wav_runs (join dir "00_clean.wav") x (log ++ [Makedirs dir])
                Hdir Hx) as (data & Hsave & _).
    rewrite Hsave. eexists. split; [reflexivity|].
    rewrite !applied_app, !written_app. cbn. rewrite !app_nil_r. auto.
  - eexists. split; [reflexivity|]. rewrite app_nil_r. auto.
Qed.

Section Chain.

Variable sos : Type.
Variable butter_design : nat -> R -> R -> sos.
Variable sosfilt : sos -> array -> array.

(** The loop on a chain with an unknown name: the loop on the names before
    it, then the exception. *)
Lemma chain_loop_unknown (a : ChainHendrix.args) (bad : string) (post : list string) :
  ChainHendrix.lookup bad (ChainHendrix.EFFECTS sos butter_design sosfilt) = None ->
  forall (pre : list string) (i : nat) (current : array) (log : list event),
    ChainHendrix.chain_loop sos butter_design sosfilt a (pre ++ bad :: post) i current log =
    (_ <~ ChainHendrix.chain_loop sos butter_design sosfilt a pre i current ;;
     lift (Raise (ValueError ("Unknown effect: " ++ bad)))) log.
Proof.
  intros Hbad. induction pre as [|ef pre IH]; intros i current log.
  - cbn [app ChainHendrix.chain_loop]. rewrite Hbad. reflexivity.
  - cbn [app ChainHendrix.chain_loop].
    destruct (ChainHendrix.lookup ef (ChainHendrix.EFFECTS sos butter_design sosfilt))
      as [f|]; [|reflexivity].
    unfold io_bind, emit, lift.
    destruct (f current) as [current'|e]; [|reflexivity].
    destruct (ChainHendrix.stems_folder a) as [dir|].
    + destruct (ChainHendrix.save_wav _ current' (log ++ [Apply ef]))
        as [log' [[]|e]]; [|reflexivity].
      rewrite IH. reflexivity.
    + unfold ret. rewrite IH. reflexivity.
Qed.

Hypothesis sosfilt_length : forall flt seg, length (sosfilt flt seg) = length seg.

(** The loop on registered names and a signal that is not empty: every
    effect is applied and every stem written. *)
Lemma chain_loop_runs (a : ChainHendrix.args) (x : array) :
  x <> [] ->
  forall (efs : list string) (i : nat) (current : array) (log : list event),
    length current = length x ->
    Forall (fun ef => ChainHendrix.lookup ef (ChainHendrix.EFFECTS sos butter_design sosfilt)
                      <> None) efs ->
    exists log' current',
      ChainHendrix.chain_loop sos butter_design sosfilt a efs i current log
        = (log', Ok current') /\
      length current' = length x /\
      (efs <> [] -> peak_le 1 current') /\
      applied log' = (applied log ++ efs)%list /\
      written log' = (written log ++ stem_paths a i efs)%list.
Proof.
  intros Hx. induction efs as [|ef efs IH]; intros i current log Hc Hreg.
  - exists log, current. unfold stem_paths.
    destruct (ChainHendrix.stems_folder a); cbn; rewrite !app_nil_r;
      repeat split; auto; congruence.
  - inversion Hreg as [|? ? Hef Hrest]; subst.
    cbn [ChainHendrix.chain_loop].
    destruct (ChainHendrix.lookup ef (ChainHendrix.EFFECTS sos butter_design sosfilt))
      as [f|] eqn:Ef; [|congruence].
    assert (Hcur : current <> [])
      by (apply nonempty_length; apply nonempty_length in Hx; lia).
    destruct (registry_shaped sos butter_design sosfilt sosfilt_length ef f current
                Hcur Ef) as (c1 & Hf & Hl1 & Hp1).
    unfold io_bind at 1 2. unfold emit at 1, lift at 1. rewrite Hf.
    unfold io_bind at 1.
    assert (Hc1 : c1 <> [])
      by (apply nonempty_length; apply nonempty_length in Hcur; lia).
    assert (Hstem : exists log1,
      (match ChainHendrix.stems_folder a with
       | Some dir => ChainHendrix.save_wav (join dir (ChainHendrix.stem_name i ef)) c1
       | None => ret tt
       end) (log ++ [Apply ef]) = (log1, Ok tt) /\
      applied log1 = (applied log ++ [ef])%list /\
      written log1 = (written log ++
                      match ChainHendrix.stems_folder a with
                      | Some dir => [join dir (ChainHendrix.stem_name i ef)]
                      | None => []
                      end)%list).
    { destruct (ChainHendrix.stems_folder a) as [dir|] eqn:Es.
      - destruct (save_wav_runs (join dir (ChainHendrix.stem_name i ef)) c1
                    (log ++ [Apply ef]) (stems_folder_named a dir Es) Hc1)
          as (data & Hsave & _).
        eexists. split; [exact Hsave|].
        rewrite !applied_app, !written_app. cbn. rewrite !app_nil_r. auto.
      - eexists. split; [reflexivity|].
        rewrite applied_app, written_app. cbn. rewrite !app_nil_r. auto. }
    destruct Hstem as (log1 & Hs & Ha1 & Hw1). rewrite Hs.
    destruct (IH (S i) c1 log1 ltac:(congruence) Hrest)
      as (log' & cur' & Hrun & Hlen & Hpk & Happ & Hwr).
    exists log', cur'. split; [exact Hrun|]. split; [exact Hlen|].
    split.
    + intros _. destruct efs as [|ef' efs']; [|apply Hpk; discriminate].
      cbn in Hrun. injection Hrun as _ <-. exact Hp1.
    + rewrite Happ, Hwr, Ha1, Hw1, stem_paths_cons, <- !app_assoc. auto.
Qed.

End Chain.

(** C1, on the code: on a signal that is not empty, a chain whose first
    unregistered name is [bad] ends in the [ValueError] ["Unknown effect: bad"]
    when the loop reaches that name, not before any processing. Every effect
    named before it has been applied, in order, and no other; with a stems
    folder the clean signal and the stem of each of those effects have been
    written, and nothing else: the final output is not written. [sosfilt]
    is any filter routine that returns as many samples as it is given. *)
Theorem main_unknown_effect (sos : Type) (butter_design : nat -> R -> R -> sos)
    (sosfilt : sos -> array -> array) (a : ChainHendrix.args) (x : array)
    (pre : list string) (bad : string) (post : list string) (log : list event) :
  (forall flt seg, length (sosfilt flt seg) = length seg) ->
  x <> [] ->
  ChainHendrix.chain a = pre ++ bad :: post ->
  Forall (fun ef => ChainHendrix.lookup ef (ChainHendrix.EFFECTS sos butter_design sosfilt)
                    <> None) pre ->
  ChainHendrix.lookup bad (ChainHendrix.EFFECTS sos butter_design sosfilt) = None ->
  exists log',
    ChainHendrix.main sos butter_design sosfilt a x log
      = (log', Raise (ValueError ("Unknown effect: " ++ bad))) /\
    applied log' = (applied log ++ pre)%list /\
    written log' = (written log ++ clean_path a ++ stem_paths a 1 pre)%list.
Proof.
  intros Hlen Hx Hchain Hpre Hbad. unfold ChainHendrix.main. rewrite Hchain.
  destruct (save_clean_runs a x log Hx) as (log1 & Hc & Ha1 & Hw1).
  unfold io_bind at 1. rewrite Hc.
  unfold io_bind at 1.
  rewrite (chain_loop_unknown sos butter_design sosfilt a bad post Hbad).
  destruct (chain_loop_runs sos butter_design sosfilt Hlen a x Hx pre 1 x log1
              eq_refl Hpre) as (log2 & cur & Hrun & _ & _ & Ha2 & Hw2).
  unfold io_bind, lift. rewrite Hrun.
  exists log2. split; [reflexivity|].
  rewrite Ha2, Hw2, Ha1, Hw1, <- app_assoc. auto.
Qed.

Lemma main_unknown_effect_witness :
  exists log',
    ChainHendrix.main unit (fun _ _ _ => tt) (fun _ seg => seg)
      args_with_unknown [1; -2] []
      = (log', Raise (ValueError ("Unknown effect: " ++ "phaser"))) /\
    applied log' = (applied [] ++ ["octavia"%string])%list /\
    written log' =
      (written [] ++ clean_path args_with_unknown
                 ++ stem_paths args_with_unknown 1 ["octavia"%string])%list.
Proof.
  apply (main_unknown_effect unit (fun _ _ _ => tt) (fun _ seg => seg)
           args_with_unknown [1; -2] ["octavia"%string] "phaser" [] []).
  - intros flt seg. reflexivity.
  - discriminate.
  - reflexivity.
  - repeat constructor. discriminate.
  - reflexivity.
Defined.

(** C1 fails as stated: with the chain [octavia phaser] and a stems folder,
    [octavia] is applied and its stem is written before the unknown name
    [phaser] is reported. *)
Lemma main_applies_effects_before_unknown :
  exists log,
    ChainHendrix.main unit (fun _ _ _ => tt) (fun _ seg => seg)
      args_with_unknown [1] []
      = (log, Raise (ValueError "Unknown effect: phaser")) /\
    In (Apply "octavia") log /\
    exists data, In (SfWrite (join "stems" "01_octavia.wav") data) log.
Proof.
  eexists. split; [reflexivity|].
  split; [|eexists]; simpl; auto 10.
Qed.

(** * Further properties of the effects *)

(** ** The tape echo as a recurrence *)

Ltac nat_tests :=
  repeat match goal with
         | H : (_ <=? _)%nat = true |- _ => apply Nat.leb_le in H
         | H : (_ <=? _)%nat = false |- _ => apply Nat.leb_gt in H
         | H : (_ <? _)%nat = true |- _ => apply Nat.ltb_lt in H
         | H : (_ <? _)%nat = false |- _ => apply Nat.ltb_ge in H
         | H : (_ =? _)%nat = true |- _ => apply Nat.eqb_eq in H
         | H : (_ =? _)%nat = false |- _ => apply Nat.eqb_neq in H
         end.

Lemma tape_echo_comb (x : array) (delay_ms fb hf : R) (d : nat) :
  EchoIr.delay_samples delay_ms = Z.of_nat d ->
  exists y,
    EchoIr.tape_echo x delay_ms fb hf = Ok y /\
    length y = length x /\
    forall n, (n < length x)%nat ->
      nth n y 0 =
      if ((1 <=? d) && (2 * d <=? n))%nat
      then nth n x 0 + fb * (hf * nth (n - d) y 0)
      else nth n x 0.
Proof.
  intros Hd.
  destruct (tape_echo_nat x delay_ms fb hf d Hd) as (y & Hrun & Hlen & Hnth).
  exists y. split; [exact Hrun|]. split; [exact Hlen|].
  intros n Hn. rewrite (Hnth n Hn). unfold echo_prior.
  destruct (1 <=? d)%nat eqn:E1, (2 * d <=? n)%nat eqn:E2,
           (d <=? n)%nat eqn:E3, (d <=? n - d)%nat eqn:E4, (0 <? d)%nat eqn:E5;
    cbn [andb]; try reflexivity; try lra; nat_tests; lia.
Qed.

(** X1: the loop of [tape_echo] computes a feedback comb: below two delays the
    output is the input, from there on it adds [feedback*hf_loss] times the
    output one delay earlier. *)
Theorem tape_echo_recurrence (x : array) (delay_ms feedback hf_loss : R) :
  (0 <= EchoIr.delay_samples delay_ms)%Z ->
  exists y,
    EchoIr.tape_echo x delay_ms feedback hf_loss = Ok y /\
    length y = length x /\
    forall n, (n < length x)%nat ->
      let d := Z.to_nat (EchoIr.delay_samples delay_ms) in
      nth n y 0 =
      if ((1 <=? d) && (2 * d <=? n))%nat
      then nth n x 0 + feedback * (hf_loss * nth (n - d) y 0)
      else nth n x 0.
Proof.
  intros Hd.
  exact (tape_echo_comb x delay_ms feedback hf_loss
           (Z.to_nat (EchoIr.delay_samples delay_ms)) ltac:(lia)).
Qed.

Lemma tape_echo_recurrence_witness :
  exists y,
    EchoIr.tape_echo [1; 0.5; 0.25] 120 0.6 0.75 = Ok y /\
    length y = length [1; 0.5; 0.25] /\
    forall n, (n < length [1; 0.5; 0.25]%R)%nat ->
      let d := Z.to_nat (EchoIr.delay_samples 120) in
      nth n y 0 =
      if ((1 <=? d) && (2 * d <=? n))%nat
      then nth n [1; 0.5; 0.25] 0 + 0.6 * (0.75 * nth (n - d) y 0)
      else nth n [1; 0.5; 0.25] 0.
Proof.
  apply (tape_echo_recurrence [1; 0.5; 0.25] 120 0.6 0.75).
  rewrite delay_samples_default. lia.
Defined.

Lemma nth_click (len p n : nat) :
  (p < len)%nat ->
  nth n (set_nth (repeat 0 len) p 1) 0 = if (n =? p)%nat then 1 else 0.
Proof.
  intros Hp. destruct (n =? p)%nat eqn:E; nat_tests.
  - subst n. apply nth_set_nth_eq. now rewrite repeat_length.
  - rewrite nth_set_nth_neq by exact E. apply nth_repeat_zero.
Qed.

(** X2: a click that comes at least one delay after the start does echo: it
    returns every [d] samples, each time [feedback*hf_loss] times weaker,
    and nothing else is heard. *)
Theorem tape_echo_late_click (len p : nat) (delay_ms feedback hf_loss : R) :
  (1 <= EchoIr.delay_samples delay_ms)%Z ->
  (EchoIr.delay_samples delay_ms <= Z.of_nat p)%Z ->
  (p < len)%nat ->
  exists y,
    EchoIr.tape_echo (set_nth (repeat 0 len) p 1) delay_ms feedback hf_loss = Ok y /\
    length y = len /\
    forall n, (n < len)%nat ->
      let d := Z.to_nat (EchoIr.delay_samples delay_ms) in
      nth n y 0 =
      if ((p <=? n) && ((n - p) mod d =? 0))%nat
      then (feedback * hf_loss) ^ ((n - p) / d)
      else 0.
Proof.
  intros Hd1 Hdp Hp.
  remember (Z.to_nat (EchoIr.delay_samples delay_ms)) as d eqn:Hdn.
  assert (Hd : (1 <= d)%nat) by lia.
  assert (Hpd : (d <= p)%nat) by lia.
  destruct (tape_echo_comb (set_nth (repeat 0 len) p 1) delay_ms feedback hf_loss d
              ltac:(lia)) as (y & Hrun & Hlen & Hnth).
  rewrite length_set_nth, repeat_length in Hlen, Hnth.
  exists y. split; [exact Hrun|]. split; [exact Hlen|].
  cbv zeta. intros n.
  induction n as [n IH] using (well_founded_induction lt_wf). intros Hn.
  rewrite (Hnth n Hn), (nth_click len p n Hp).
  replace (1 <=? d)%nat with true by (symmetry; apply Nat.leb_le; exact Hd).
  cbn [andb].
  destruct (2 * d <=? n)%nat eqn:E2; nat_tests.
  - rewrite (IH (n - d)%nat) by lia.
    destruct (n =? p)%nat eqn:Enp; nat_tests.
    + subst n.
      replace (p <=? p - d)%nat with false by (symmetry; apply Nat.leb_gt; lia).
      replace (p <=? p)%nat with true by (symmetry; apply Nat.leb_le; lia).
      rewrite Nat.sub_diag, Nat.Div0.mod_0_l, Nat.Div0.div_0_l. cbn. lra.
    + destruct (p <=? n - d)%nat eqn:E3; nat_tests.
      * replace (p <=? n)%nat with true by (symmetry; apply Nat.leb_le; lia).
        replace (n - p)%nat with ((n - d - p) + 1 * d)%nat by lia.
        rewrite Nat.Div0.mod_add, Nat.div_add by lia.
        cbn [andb].
        destruct ((n - d - p) mod d =? 0)%nat; [|lra].
        rewrite Nat.add_1_r. cbn [pow]. ring.
      * cbn [andb].
        destruct (p <=? n)%nat eqn:E4; cbn [andb]; [|lra]. nat_tests.
        replace ((n - p) mod d =? 0)%nat with false; [lra|].
        symmetry. apply Nat.eqb_neq. rewrite Nat.mod_small by lia. lia.
  - destruct (n =? p)%nat eqn:Enp; nat_tests.
    + subst n.
      replace (p <=? p)%nat with true by (symmetry; apply Nat.leb_le; lia).
      rewrite Nat.sub_diag, Nat.Div0.mod_0_l, Nat.Div0.div_0_l. cbn. lra.
    + destruct (p <=? n)%nat eqn:E4; cbn [andb]; [|lra]. nat_tests.
      replace ((n - p) mod d =? 0)%nat with false; [lra|].
      symmetry. apply Nat.eqb_neq. rewrite Nat.mod_small by lia. lia.
Qed.

Lemma tape_echo_late_click_witness :
  exists y,
    EchoIr.tape_echo (set_nth (repeat 0 6) 2 1) (1 / 48) 0.6 0.75 = Ok y /\
    length y = 6%nat /\
    forall n, (n < 6)%nat ->
      let d := Z.to_nat (EchoIr.delay_samples (1 / 48)) in
      nth n y 0 =
      if ((2 <=? n) && ((n - 2) mod d =? 0))%nat
      then (0.6 * 0.75) ^ ((n - 2) / d)
      else 0.
Proof.
  apply (tape_echo_late_click 6 2 (1 / 48) 0.6 0.75);
    rewrite ?delay_samples_one; lia.
Defined.

Lemma nth_map2_in (f : R -> R -> R) (a b : array) (n : nat) :
  (n < length a)%nat -> (n < length b)%nat ->
  nth n (map2 f a b) 0 = f (nth n a 0) (nth n b 0).
Proof.
  revert b n. induction a as [|x a IH]; intros [|y b] [|n] Ha Hb;
    simpl in *; try lia; auto.
  apply IH; lia.
Qed.

(** X3: before normalisation the tape echo is linear: the echo of a mix of two
    signals of one length is the same mix of their echoes. *)
Theorem tape_echo_linear (x1 x2 : array) (a b delay_ms feedback hf_loss : R) :
  (0 <= EchoIr.delay_samples delay_ms)%Z ->
  length x1 = length x2 ->
  exists y1 y2,
    EchoIr.tape_echo x1 delay_ms feedback hf_loss = Ok y1 /\
    EchoIr.tape_echo x2 delay_ms feedback hf_loss = Ok y2 /\
    EchoIr.tape_echo (map2 (fun u v => a * u + b * v) x1 x2)
      delay_ms feedback hf_loss
    = Ok (map2 (fun u v => a * u + b * v) y1 y2).
Proof.
  intros Hd Hl.
  set (mix := fun u v : R => a * u + b * v).
  remember (Z.to_nat (EchoIr.delay_samples delay_ms)) as d eqn:Hdn.
  assert (Hdz : EchoIr.delay_samples delay_ms = Z.of_nat d) by lia.
  destruct (tape_echo_comb x1 delay_ms feedback hf_loss d Hdz) as (y1 & R1 & L1 & N1).
  destruct (tape_echo_comb x2 delay_ms feedback hf_loss d Hdz) as (y2 & R2 & L2 & N2).
  destruct (tape_echo_comb (map2 mix x1 x2) delay_ms feedback hf_loss d Hdz)
    as (y & Rm & Lm & Nm).
  exists y1, y2. split; [exact R1|]. split; [exact R2|].
  rewrite Rm. f_equal.
  assert (Lx : length (map2 mix x1 x2) = length x1)
    by (rewrite length_map2; lia).
  rewrite Lx in Lm, Nm.
  apply array_ext; [rewrite length_map2; lia|].
  rewrite Lm. intros n.
  induction n as [n IH] using (well_founded_induction lt_wf). intros Hn.
  rewrite (Nm n Hn), (nth_map2_in mix y1 y2 n) by lia.
  rewrite (N1 n Hn), (N2 n ltac:(lia)).
  rewrite (nth_map2_in mix x1 x2 n) by lia.
  destruct ((1 <=? d) && (2 * d <=? n))%nat eqn:E; [|reflexivity].
  apply andb_true_iff in E. destruct E as [E1 E2]. nat_tests.
  rewrite (IH (n - d)%nat) by lia.
  rewrite (nth_map2_in mix y1 y2 (n - d)) by lia. unfold mix. ring.
Qed.

Lemma tape_echo_linear_witness :
  exists y1 y2,
    EchoIr.tape_echo [1; 0; 2] (1 / 48) 0.6 0.75 = Ok y1 /\
    EchoIr.tape_echo [0; 1; -1] (1 / 48) 0.6 0.75 = Ok y2 /\
    EchoIr.tape_echo (map2 (fun u v => 2 * u + 3 * v) [1; 0; 2] [0; 1; -1])
      (1 / 48) 0.6 0.75
    = Ok (map2 (fun u v => 2 * u + 3 * v) y1 y2).
Proof.
  apply (tape_echo_linear [1; 0; 2] [0; 1; -1] 2 3 (1 / 48) 0.6 0.75).
  - rewrite delay_samples_one. lia.
  - reflexivity.
Defined.

(** X4: with a loop gain [|feedback*hf_loss|] below 1 the echo cannot build up:
    an input of peak [B] gives an output of peak at most [B/(1 - gain)]. *)
Theorem tape_echo_bounded (x : array) (delay_ms feedback hf_loss B : R) :
  (0 <= EchoIr.delay_samples delay_ms)%Z ->
  Rabs (feedback * hf_loss) < 1 ->
  peak_le B x ->
  exists y,
    EchoIr.tape_echo x delay_ms feedback hf_loss = Ok y /\
    peak_le (B / (1 - Rabs (feedback * hf_loss))) y.
Proof.
  intros Hd Hg HB.
  remember (Z.to_nat (EchoIr.delay_samples delay_ms)) as d eqn:Hdn.
  destruct (tape_echo_comb x delay_ms feedback hf_loss d ltac:(lia))
    as (y & Hrun & Hlen & Hnth).
  exists y. split; [exact Hrun|].
  set (g := Rabs (feedback * hf_loss)) in *.
  assert (Hg0 : 0 <= g) by apply Rabs_pos.
  assert (Hx : forall n, (n < length x)%nat -> Rabs (nth n x 0) <= B).
  { intros n Hn. unfold peak_le in HB. rewrite Forall_forall in HB.
    apply HB, nth_In, Hn. }
  assert (Hy : forall n, (n < length x)%nat -> Rabs (nth n y 0) <= B / (1 - g)).
  { intros n. induction n as [n IH] using (well_founded_induction lt_wf).
    intros Hn. specialize (Hx n Hn).
    assert (HB0 : 0 <= B) by (pose proof (Rabs_pos (nth n x 0)); lra).
    assert (Hq : B <= B / (1 - g)).
    { apply (Rmult_le_reg_r (1 - g)); [lra|].
      unfold Rdiv. rewrite Rmult_assoc, Rinv_l by lra. nra. }
    rewrite (Hnth n Hn).
    destruct ((1 <=? d) && (2 * d <=? n))%nat eqn:E; [|lra].
    apply andb_true_iff in E. destruct E as [E1 E2]. nat_tests.
    specialize (IH (n - d)%nat ltac:(lia) ltac:(lia)).
    replace (feedback * (hf_loss * nth (n - d) y 0))
      with (feedback * hf_loss * nth (n - d) y 0) by ring.
    eapply Rle_trans; [apply Rabs_triang|].
    rewrite Rabs_mult. fold g.
    assert (Hprod : g * Rabs (nth (n - d) y 0) <= g * (B / (1 - g)))
      by (apply Rmult_le_compat_l; assumption).
    assert (Hsum : B + g * (B / (1 - g)) = B / (1 - g)) by (field; lra).
    lra. }
  unfold peak_le. apply Forall_forall. intros s Hs.
  apply (In_nth y s 0) in Hs. destruct Hs as (n & Hn & <-).
  apply Hy. lia.
Qed.

Lemma tape_echo_bounded_witness :
  exists y,
    EchoIr.tape_echo [1; -1; 0.5] (1 / 48) 0.6 0.75 = Ok y /\
    peak_le (1 / (1 - Rabs (0.6 * 0.75))) y.
Proof.
  apply (tape_echo_bounded [1; -1; 0.5] (1 / 48) 0.6 0.75 1).
  - rewrite delay_samples_one. lia.
  - rewrite Rabs_right; lra.
  - repeat constructor; unfold Rabs; destruct Rcase_abs; lra.
Defined.

(** X6: the response that [echo_ir.py] plots is the unit impulse itself for
    every delay that is not negative and every duration that is not
    negative: [--feedback] and [--hf] do not change it, and neither does the
    delay. A negative duration ends in the [ValueError] of [np.zeros]. *)
Theorem impulse_response_is_the_impulse (delay feedback hf dur : R) :
  ((0 <= int (SR * dur))%Z ->
   (0 <= EchoIr.delay_samples delay)%Z ->
   EchoIr.impulse_response delay feedback hf dur
   = EchoIr.unit_impulse (Z.to_nat (int (SR * dur)))) /\
  ((int (SR * dur) < 0)%Z ->
   exists msg,
     EchoIr.impulse_response delay feedback hf dur = Raise (ValueError msg)).
Proof.
  unfold EchoIr.impulse_response. split.
  - intros HN Hd.
    replace (int (SR * dur) <? 0)%Z with false by (symmetry; apply Z.ltb_ge; lia).
    destruct (Z.to_nat (int (SR * dur))) as [|m]; [reflexivity|].
    change (EchoIr.unit_impulse (S m)) with (@Ok array (1 :: repeat 0 m)).
    cbn [bind].
    destruct (Z.eq_dec (EchoIr.delay_samples delay) 0) as [E|E].
    + now apply tape_echo_zero_delay.
    + apply (tape_echo_silent_tail _ delay feedback hf
               (Z.to_nat (EchoIr.delay_samples delay))); [lia|].
      intros [|j] Hj; [lia|]. cbn [nth]. apply nth_repeat_zero.
  - intros HN.
    replace (int (SR * dur) <? 0)%Z with true by (symmetry; apply Z.ltb_lt; lia).
    eauto.
Qed.

Lemma impulse_response_is_the_impulse_witness :
  EchoIr.impulse_response 120 0.9 1 1.2
  = EchoIr.unit_impulse (Z.to_nat (int (SR * 1.2))).
Proof.
  apply (impulse_response_is_the_impulse 120 0.9 1 1.2).
  - rewrite impulse_length. lia.
  - rewrite delay_samples_default. lia.
Defined.

(** ** The pre-emphasis low-pass and the fuzz *)

Lemma lp_alpha_range (fc : R) :
  0 < fc -> 0 < exp (- 1 / (SR * (1 / (2 * PI * fc)))) < 1.
Proof.
  intros Hfc. pose proof PI_RGT_0 as Hpi.
  split; [apply exp_pos|].
  assert (H : 0 < SR * (1 / (2 * PI * fc))).
  { unfold SR. apply Rmult_lt_0_compat; [lra|].
    apply Rdiv_lt_0_compat; [lra | nra]. }
  assert (E : exp (- 1 / (SR * (1 / (2 * PI * fc)))) < exp 0).
  { apply exp_increasing. apply quotient_lt; [exact H | lra]. }
  now rewrite exp_0 in E.
Qed.

Lemma lp_loop_bounded (alpha B prev : R) (xs : array) :
  0 <= alpha <= 1 -> Rabs prev <= B -> peak_le B xs ->
  peak_le B (ChainHendrix.lp_loop alpha prev xs).
Proof.
  intros Ha. revert prev. induction xs as [|x xs IH]; intros prev Hp Hx.
  - constructor.
  - inversion Hx as [|? ? Hx0 Hxs]; subst. cbn [ChainHendrix.lp_loop].
    assert (H : Rabs (alpha * prev + (1 - alpha) * x) <= B).
    { eapply Rle_trans; [apply Rabs_triang|]. rewrite !Rabs_mult.
      rewrite (Rabs_right alpha), (Rabs_right (1 - alpha)) by lra. nra. }
    constructor; [exact H|]. apply IH; assumption.
Qed.

(** X7: the pre-emphasis low-pass never overshoots: for a cutoff above 0 it
    returns an output that keeps the length and the first sample of the
    input, and every bound on the input's peak is a bound on the
    output's. *)
Theorem lp_pre_emphasis_no_overshoot (x : array) (fc B : R) :
  0 < fc -> peak_le B x ->
  exists y,
    ChainHendrix.lp_pre_emphasis x fc = Ok y /\
    length y = length x /\
    nth 0 y 0 = nth 0 x 0 /\
    peak_le B y.
Proof.
  intros Hfc HB. eexists. split; [apply lp_pre_emphasis_runs; lra|].
  destruct x as [|x0 xs]; [repeat split; constructor|].
  split; [cbn [length]; now rewrite length_lp_loop|].
  split; [reflexivity|].
  inversion HB as [|? ? H0 Hxs]; subst.
  constructor; [exact H0|].
  apply lp_loop_bounded; auto.
  pose proof (lp_alpha_range fc Hfc). lra.
Qed.

Lemma lp_pre_emphasis_no_overshoot_witness :
  exists y,
    ChainHendrix.lp_pre_emphasis [0.5; -1; 0.25] 3500 = Ok y /\
    length y = length [0.5; -1; 0.25] /\
    nth 0 y 0 = nth 0 [0.5; -1; 0.25] 0 /\
    peak_le 1 y.
Proof.
  apply (lp_pre_emphasis_no_overshoot [0.5; -1; 0.25] 3500 1).
  - lra.
  - repeat constructor; unfold Rabs; destruct Rcase_abs; lra.
Defined.

Lemma lp_loop_constant (alpha c : R) (n : nat) :
  ChainHendrix.lp_loop alpha c (repeat c n) = repeat c n.
Proof.
  induction n as [|n IH]; [reflexivity|].
  cbn [repeat ChainHendrix.lp_loop].
  replace (alpha * c + (1 - alpha) * c) with c by ring. now rewrite IH.
Qed.

Lemma lp_pre_emphasis_at_rest (c fc : R) (n : nat) :
  fc <> 0 -> ChainHendrix.lp_pre_emphasis (repeat c n) fc = Ok (repeat c n).
Proof.
  intros Hfc. rewrite lp_pre_emphasis_runs by exact Hfc.
  destruct n as [|n]; [reflexivity|].
  cbn [repeat]. now rewrite lp_loop_constant.
Qed.

(** X8: the pre-emphasis low-pass has unit gain at DC: a constant buffer passes
    unchanged, for every cutoff other than 0; a cutoff of 0 raises
    [ZeroDivisionError], whatever the buffer. *)
Theorem lp_pre_emphasis_constant (c fc : R) (n : nat) (x : array) :
  (fc <> 0 -> ChainHendrix.lp_pre_emphasis (repeat c n) fc = Ok (repeat c n)) /\
  ChainHendrix.lp_pre_emphasis x 0 = Raise ZeroDivisionError.
Proof.
  split.
  - intros Hfc. rewrite lp_pre_emphasis_runs by exact Hfc.
    destruct n as [|n]; [reflexivity|].
    cbn [repeat]. do 2 f_equal. apply lp_loop_constant.
  - unfold ChainHendrix.lp_pre_emphasis, truediv.
    destruct (Req_dec_T (2 * PI * 0) 0) as [_|N]; [reflexivity|].
    exfalso. apply N. ring.
Qed.

Lemma lp_pre_emphasis_constant_witness :
  ChainHendrix.lp_pre_emphasis (repeat 0.5 3) 3500 = Ok (repeat 0.5 3).
Proof. apply (lp_pre_emphasis_constant 0.5 3500 3 []). lra. Defined.

Lemma tanh_odd (x : R) : tanh (- x) = - tanh x.
Proof.
  unfold tanh, sinh, cosh. rewrite Ropp_involutive.
  pose proof (exp_pos x). pose proof (exp_pos (- x)).
  field. lra.
Qed.

Lemma clip_odd (h v : R) : 0 <= h -> clip (- h) h (- v) = - clip (- h) h v.
Proof.
  intros Hh. unfold clip, Rmin, Rmax.
  repeat (destruct Rle_dec); lra.
Qed.

Lemma lp_loop_opp (alpha prev : R) (xs : array) :
  ChainHendrix.lp_loop alpha (- prev) (map Ropp xs)
  = map Ropp (ChainHendrix.lp_loop alpha prev xs).
Proof.
  revert prev. induction xs as [|x xs IH]; intros prev; [reflexivity|].
  cbn [map ChainHendrix.lp_loop].
  replace (alpha * - prev + (1 - alpha) * - x)
    with (- (alpha * prev + (1 - alpha) * x)) by ring.
  now rewrite IH.
Qed.

Lemma norm_opp (x y : array) :
  ChainHendrix.norm x = Ok y ->
  ChainHendrix.norm (map Ropp x) = Ok (map Ropp y).
Proof.
  unfold ChainHendrix.norm. rewrite map_map.
  rewrite (map_ext (fun v => Rabs (- v)) Rabs) by (intros; apply Rabs_Ropp).
  destruct (max (map Rabs x)) as [m|e]; cbn [bind]; [|discriminate].
  intros [= <-]. rewrite !map_map. f_equal. apply map_ext. intros v. lra.
Qed.

Lemma map2_map_l (f : R -> R -> R) (g : R -> R) (a b : array) :
  map2 f (map g a) b = map2 (fun u v => f (g u) v) a b.
Proof.
  revert b. induction a as [|x a IH]; intros [|y b]; simpl; auto.
  now rewrite IH.
Qed.

(** X9: the fuzz is odd: turning the polarity of the input over turns the
    polarity of the output over, sample for sample. *)
Theorem fuzz_odd (x : array) (drive hard : R) :
  x <> [] ->
  exists y,
    ChainHendrix.fuzz x drive hard = Ok y /\
    ChainHendrix.fuzz (map Ropp x) drive hard = Ok (map Ropp y).
Proof.
  intros Hx. destruct (fuzz_shaped x drive hard Hx) as (y & Hy & _).
  exists y. split; [exact Hy|].
  unfold ChainHendrix.fuzz in *.
  rewrite lp_pre_emphasis_runs in * by lra. cbn [bind] in *.
  apply norm_opp in Hy. rewrite <- Hy. f_equal.
  set (alpha := exp _).
  assert (Hlp : match map Ropp x with
                | [] => []
                | x0 :: rest => x0 :: ChainHendrix.lp_loop alpha x0 rest
                end
                = map Ropp match x with
                           | [] => []
                           | x0 :: rest => x0 :: ChainHendrix.lp_loop alpha x0 rest
                           end).
  { destruct x as [|x0 xs]; [reflexivity|].
    cbn [map]. now rewrite lp_loop_opp. }
  rewrite Hlp.
  generalize (match x with
              | [] => []
              | x0 :: rest => x0 :: ChainHendrix.lp_loop alpha x0 rest
              end).
  intros l.
  induction l as [|v l IH]; [reflexivity|].
  cbn [map map2]. rewrite IH. f_equal.
  replace (drive * - v) with (- (drive * v)) by ring.
  rewrite tanh_odd.
  replace (-0.6) with (Ropp 0.6) by lra.
  rewrite clip_odd by lra. ring.
Qed.

Lemma fuzz_odd_witness :
  exists y,
    ChainHendrix.fuzz [0.5; -1] 8 0.45 = Ok y /\
    ChainHendrix.fuzz (map Ropp [0.5; -1]) 8 0.45 = Ok (map Ropp y).
Proof. apply (fuzz_odd [0.5; -1] 8 0.45). discriminate. Defined.

(** X10: the octave-up effect does not hear polarity: a signal, its inverse and
    its rectified form give the same output, and an empty one the same
    exception. *)
Theorem octavia_even (x : array) :
  ChainHendrix.octavia (map Ropp x) = ChainHendrix.octavia x /\
  ChainHendrix.octavia (map Rabs x) = ChainHendrix.octavia x.
Proof.
  unfold ChainHendrix.octavia. cbv zeta.
  split; f_equal; rewrite !map_map; apply map_ext; intros v.
  - now rewrite Rabs_Ropp.
  - now rewrite Rabs_Rabsolu.
Qed.

(** ** The uni-vibe at depth 0 and its coefficients *)

Lemma map2_left (f : R -> R -> R) (a b : array) :
  (forall u v, f u v = u) -> length a = length b -> map2 f a b = a.
Proof.
  intros Hf. revert b. induction a as [|x a IH]; intros [|y b] Hl;
    simpl in *; try discriminate; auto.
  rewrite Hf, IH by lia. reflexivity.
Qed.

Lemma allpass_depth_zero (seg : array) (fc : R) :
  ChainHendrix.allpass seg fc 0 = seg.
Proof.
  unfold ChainHendrix.allpass. apply map2_left.
  - intros u v. ring.
  - unfold ChainHendrix.allpass_out. now rewrite length_allpass_loop.
Qed.

Lemma nth_block (y : array) (blk n : nat) :
  (0 < blk)%nat ->
  nth (n mod blk) (slice y (n / blk * blk) blk) 0 = nth n y 0.
Proof.
  intros Hb. rewrite nth_slice by (apply Nat.mod_upper_bound; lia).
  f_equal. pose proof (Nat.div_mod_eq n blk). lia.
Qed.

Lemma univibe_stage_depth_zero (lfo y : array) (base : R) :
  ChainHendrix.univibe_stage lfo 0 y base = Ok y.
Proof.
  destruct (univibe_stage_blockwise lfo 0 y base) as (z & Hrun & Hlen & Hnth).
  rewrite Hrun. f_equal. apply array_ext; [exact Hlen|].
  rewrite Hlen. intros n Hn. rewrite (Hnth n Hn). unfold block_value.
  rewrite allpass_depth_zero. apply nth_block.
  unfold ChainHendrix.univibe_blk. lia.
Qed.

(** X11: at depth 0 the four all-pass stages of the uni-vibe leave the signal as
    it is: what remains is the tremolo at half the rate and [norm]. *)
Theorem univibe_depth_zero (x : array) (rate_hz : R) :
  ChainHendrix.univibe x rate_hz 0 =
  ChainHendrix.norm
    (map2 Rmult x
       (map (fun t => 0.9 * (1 + 0.15 * sin (2 * PI * (rate_hz / 2) * t)))
            (ChainHendrix.time_axis (length x)))).
Proof.
  unfold ChainHendrix.univibe. cbn [for_each].
  repeat (rewrite univibe_stage_depth_zero; cbn [bind]). reflexivity.
Qed.

(** X12: for every rate the all-pass coefficient of every block of every stage
    lies in [0, 1): the block frequency stays between 0.7 and 1.5 times the
    base, far below half the sample rate. *)
Theorem univibe_coefficients_stable (n : nat) (rate_hz base : R) (i : nat) :
  (i < n)%nat -> In base [220; 440; 700; 1100] ->
  let fc := ChainHendrix.univibe_fc (ChainHendrix.univibe_lfo n rate_hz) base i in
  0.7 * base <= fc <= 1.5 * base /\
  0 <= ChainHendrix.allpass_coeff fc < 1.
Proof.
  intros Hi Hbase fc.
  pose proof (univibe_lfo_range n rate_hz i Hi) as Hl.
  assert (Hfc : 0.7 * base <= fc <= 1.5 * base /\ 0 < base <= 1100).
  { unfold fc, ChainHendrix.univibe_fc.
    cbn in Hbase. destruct Hbase as [<-|[<-|[<-|[<-|[]]]]]; lra. }
  split; [tauto|]. apply allpass_coeff_range. lra.
Qed.

Lemma univibe_coefficients_stable_witness :
  let fc := ChainHendrix.univibe_fc (ChainHendrix.univibe_lfo 300 4) 1100 256 in
  0.7 * 1100 <= fc <= 1.5 * 1100 /\
  0 <= ChainHendrix.allpass_coeff fc < 1.
Proof.
  apply (univibe_coefficients_stable 300 4 1100 256).
  - lia.
  - cbn. auto.
Defined.

(** ** The auto-wah block by block *)

(** X13: the auto-wah filters every block of 256 samples on its own. For a
    positive [q] and [30 <= f_lo <= f_hi <= SR/2 - 100] the loop runs to its
    end, and before [norm] the block of the output that starts at [i] is
    [sosfilt] of the same block of the input, with the filter that
    [bandpass_sos] designs for [centers[i]], and nothing of the blocks
    before it. *)
Theorem wah_blocks_filtered_alone (sos : Type)
    (butter_design : nat -> R -> R -> sos) (sosfilt : sos -> array -> array)
    (x : array) (f_lo f_hi rate_hz q : R) :
  (forall flt seg, length (sosfilt flt seg) = length seg) ->
  0 < q -> 30 <= f_lo -> f_lo <= f_hi -> f_hi <= SR / 2 - 100 ->
  exists y,
    ChainHendrix.wah_loop sos butter_design sosfilt x f_lo f_hi rate_hz q = Ok y /\
    ChainHendrix.wah_auto sos butter_design sosfilt x f_lo f_hi rate_hz q
      = ChainHendrix.norm y /\
    length y = length x /\
    forall k, let i := (k * ChainHendrix.wah_blk)%nat in
      (i < length x)%nat ->
      exists flt,
        ChainHendrix.bandpass_sos sos butter_design
          (nth i (ChainHendrix.wah_centers (length x) f_lo f_hi rate_hz) 0) q
        = Ok flt /\
        slice y i ChainHendrix.wah_blk
        = sosfilt flt (slice x i ChainHendrix.wah_blk).
Proof.
  intros Hlen Hq H1 H2 H3.
  assert (Hd : forall i, (i < length x)%nat ->
            exists flt,
              ChainHendrix.bandpass_sos sos butter_design
                (nth i (ChainHendrix.wah_centers (length x) f_lo f_hi rate_hz) 0) q
              = Ok flt).
  { intros i Hi. eexists. apply bandpass_sos_designs; [exact Hq|].
    pose proof (wah_centers_between (length x) f_lo f_hi rate_hz i H2 Hi). lra. }
  destruct (wah_loop_blockwise sos butter_design sosfilt Hlen x f_lo f_hi rate_hz q Hd)
    as (y & Hrun & Hy & Hnth).
  exists y. split; [exact Hrun|].
  split; [unfold ChainHendrix.wah_auto; now rewrite Hrun|].
  split; [exact Hy|].
  intros k i Hi. destruct (Hd i Hi) as [flt Hflt].
  exists flt. split; [exact Hflt|].
  now apply (wah_block_filtered sos butter_design sosfilt Hlen x y
               (ChainHendrix.wah_centers (length x) f_lo f_hi rate_hz) q k flt).
Qed.

Lemma wah_blocks_filtered_alone_witness :
  exists y,
    ChainHendrix.wah_loop unit (fun _ _ _ => tt) (fun _ seg => map (Rmult 2) seg)
      [1; -2; 0.5] 350 2000 1.2 2.5 = Ok y /\
    ChainHendrix.wah_auto unit (fun _ _ _ => tt) (fun _ seg => map (Rmult 2) seg)
      [1; -2; 0.5] 350 2000 1.2 2.5 = ChainHendrix.norm y /\
    length y = length [1; -2; 0.5] /\
    forall k, let i := (k * ChainHendrix.wah_blk)%nat in
      (i < length [1; -2; 0.5]%R)%nat ->
      exists flt,
        ChainHendrix.bandpass_sos unit (fun _ _ _ => tt)
          (nth i (ChainHendrix.wah_centers (length [1; -2; 0.5]%R) 350 2000 1.2) 0) 2.5
        = Ok flt /\
        slice y i ChainHendrix.wah_blk
        = map (Rmult 2) (slice [1; -2; 0.5] i ChainHendrix.wah_blk).
Proof.
  apply (wah_blocks_filtered_alone unit (fun _ _ _ => tt)
           (fun _ seg => map (Rmult 2) seg) [1; -2; 0.5] 350 2000 1.2 2.5);
    try (unfold SR; lra).
  intros flt seg. apply length_map.
Defined.

(** X14: with the defaults of the registry (350 Hz, 2000 Hz, Q 2.5) the
    centre frequency of the auto-wah stays between 350 and 2000 Hz for every
    rate, and the band handed to [butter] is [0.8*fc .. 1.2*fc] over the
    Nyquist frequency: neither clamp of [bandpass_sos] acts, the band is
    a valid one and [butter] returns its filter. *)
Theorem wah_default_band (sos : Type) (butter_design : nat -> R -> R -> sos)
    (n : nat) (rate_hz : R) (i : nat) :
  (i < n)%nat ->
  let fc := nth i (ChainHendrix.wah_centers n 350 2000 rate_hz) 0 in
  350 <= fc <= 2000 /\
  ChainHendrix.bandpass_sos sos butter_design fc 2.5
    = Ok (butter_design 2%nat (0.8 * fc / (SR / 2)) (1.2 * fc / (SR / 2))) /\
  0 < 0.8 * fc / (SR / 2) < 1.2 * fc / (SR / 2) /\
  1.2 * fc / (SR / 2) < 1.
Proof.
  intros Hi fc.
  assert (Hfc : 350 <= fc <= 2000).
  { unfold fc, ChainHendrix.wah_centers.
    rewrite nth_map_in by (rewrite length_time_axis; exact Hi).
    match goal with |- context [sin ?t] => pose proof (SIN_bound t) end. lra. }
  split; [exact Hfc|]. split.
  - rewrite bandpass_sos_designs by (unfold SR; lra).
    rewrite Rmax_right by (unfold Rdiv; lra).
    rewrite Rmin_right by (unfold SR, Rdiv; lra).
    do 2 f_equal; unfold Rdiv; lra.
  - unfold SR, Rdiv. lra.
Qed.

Lemma wah_default_band_witness :
  let fc := nth 256 (ChainHendrix.wah_centers 300 350 2000 1.2) 0 in
  350 <= fc <= 2000 /\
  ChainHendrix.bandpass_sos unit (fun _ _ _ => tt) fc 2.5
    = Ok ((fun _ _ _ => tt) 2%nat (0.8 * fc / (SR / 2)) (1.2 * fc / (SR / 2))) /\
  0 < 0.8 * fc / (SR / 2) < 1.2 * fc / (SR / 2) /\
  1.2 * fc / (SR / 2) < 1.
Proof. apply (wah_default_band unit (fun _ _ _ => tt) 300 1.2 256). lia. Defined.

(** ** Normalisation, clipping and bit reduction *)

Lemma clip_inside (th v : R) : Rabs v <= th -> clip (- th) th v = v.
Proof.
  intros H.
  assert (Hv : - th <= v <= th)
    by (unfold Rabs in H; destruct (Rcase_abs v) in H; lra).
  unfold clip, Rmin, Rmax. repeat destruct Rle_dec; lra.
Qed.

(** X16: a signal whose peak does not exceed the threshold passes the hard
    clipper unclipped: the result is the plain normalisation of the input. *)
Theorem hard_clip_below_threshold (x : array) (th : R) :
  peak_le th x ->
  HendrixLab.hard_clip x th = HendrixLab.norm x.
Proof.
  intros H. unfold HendrixLab.hard_clip. f_equal.
  rewrite <- (map_id x) at 2. apply map_ext_in.
  intros v Hv. apply clip_inside.
  unfold peak_le in H. rewrite Forall_forall in H. now apply H.
Qed.

Lemma hard_clip_below_threshold_witness :
  HendrixLab.hard_clip [0.5; -0.25] 0.6 = HendrixLab.norm [0.5; -0.25].
Proof.
  apply (hard_clip_below_threshold [0.5; -0.25] 0.6).
  repeat constructor; unfold Rabs; destruct Rcase_abs; lra.
Defined.

Lemma round_error (r : R) : Rabs (round r - r) <= 0.5.
Proof.
  unfold round. destruct (base_Int_part r) as [H1 H2].
  set (f := Int_part r) in *.
  assert (Hf1 : IZR (f + 1) = IZR f + 1) by (rewrite plus_IZR; reflexivity).
  destruct (Rlt_dec (r - IZR f) 0.5) as [A|A].
  - apply Rabs_le. lra.
  - destruct (Rlt_dec 0.5 (r - IZR f)) as [B|B].
    + apply Rabs_le. lra.
    + destruct (Z.even f); apply Rabs_le; lra.
Qed.

Lemma nth_nat_map_in (f : nat -> R) (l : list nat) (i : nat) :
  (i < length l)%nat -> nth i (map f l) 0 = f (nth i l 0%nat).
Proof.
  intros H. rewrite (nth_indep (map f l) 0 (f 0%nat)) by (rewrite length_map; lia).
  apply map_nth.
Qed.

Lemma stride_one (a : array) : stride a 1 = Ok a.
Proof.
  unfold stride, range_step.
  replace ((length a + 1 - 1) / 1)%nat with (length a)
    by (rewrite Nat.div_1_r; lia).
  apply (f_equal (@Ok array)).
  apply array_ext; [now rewrite !length_map, length_seq|].
  rewrite !length_map, length_seq. intros n Hn.
  rewrite nth_nat_map_in by (rewrite length_map, length_seq; lia).
  f_equal.
  rewrite (nth_indep _ 0%nat (0 * 1)%nat) by (rewrite length_map, length_seq; lia).
  rewrite (map_nth (fun k => (k * 1)%nat)), seq_nth by lia. lia.
Qed.

Lemma quantiser_scale_pos (bits : nat) :
  (2 <= bits)%nat -> 1 <= INR (2 ^ bits) / 2 - 1.
Proof.
  intros H.
  assert (H4 : (4 <= 2 ^ bits)%nat).
  { change 4%nat with (2 ^ 2)%nat. apply Nat.pow_le_mono_r; lia. }
  apply le_INR in H4. change (INR 4) with (INR (2 + 2)) in H4.
  rewrite plus_INR in H4. change (INR 2) with 2 in H4 || simpl in H4. lra.
Qed.

(** X17: bit reduction without decimation: with at least 2 bits and a step of 1,
    [bitcrush] normalises a buffer in which every sample is within half a
    quantisation step, [1/(2*(2^bits/2 - 1))], of the input sample. *)
Theorem bitcrush_quantisation_error (x : array) (bits : nat) :
  (2 <= bits)%nat ->
  let s := INR (2 ^ bits) / 2 - 1 in
  HendrixLab.bitcrush x bits 1
    = HendrixLab.norm (map (fun v => round (v * s) / s) x) /\
  forall v, Rabs (round (v * s) / s - v) <= 1 / (2 * s).
Proof.
  intros Hb s. pose proof (quantiser_scale_pos bits Hb) as Hs. fold s in Hs.
  split.
  - unfold HendrixLab.bitcrush. rewrite stride_one. reflexivity.
  - clearbody s. intros v. pose proof (round_error (v * s)) as He.
    replace (round (v * s) / s - v) with ((round (v * s) - v * s) / s)
      by (field; lra).
    unfold Rdiv at 1. rewrite Rabs_mult.
    rewrite (Rabs_right (/ s)) by (apply Rle_ge, Rlt_le, Rinv_0_lt_compat; lra).
    replace (1 / (2 * s)) with (/ 2 * / s) by (field; lra).
    apply Rmult_le_compat_r; [apply Rlt_le, Rinv_0_lt_compat; lra | lra].
Qed.

Lemma bitcrush_quantisation_error_witness :
  let s := INR (2 ^ 8) / 2 - 1 in
  HendrixLab.bitcrush [0.5; -0.25] 8 1
    = HendrixLab.norm (map (fun v => round (v * s) / s) [0.5; -0.25]) /\
  forall v, Rabs (round (v * s) / s - v) <= 1 / (2 * s).
Proof. apply (bitcrush_quantisation_error [0.5; -0.25] 8). lia. Defined.

(** X18: decimation: for a positive step [bitcrush] keeps the samples at the
    indices 0, step, 2*step, ..., so a buffer of [n > 0] samples comes back
    with [ceil(n/step)] samples; a step of 0 raises [ValueError]. *)
Theorem bitcrush_length (x : array) (bits downsample : nat) :
  x <> [] ->
  ((0 < downsample)%nat ->
   exists y, HendrixLab.bitcrush x bits downsample = Ok y /\
             length y = ((length x + downsample - 1) / downsample)%nat) /\
  (downsample = 0%nat ->
   exists msg, HendrixLab.bitcrush x bits downsample = Raise (ValueError msg)).
Proof.
  intros Hx. split.
  - intros Hd. unfold HendrixLab.bitcrush, stride.
    destruct downsample as [|ds]; [lia|]. cbn [bind].
    set (picked := map _ (range_step _ _)).
    assert (Hp : length picked = ((length x + S ds - 1) / S ds)%nat).
    { unfold picked, range_step. now rewrite !length_map, length_seq. }
    destruct (norm_peak picked) as (y & Hy & Hlen & _).
    { apply nonempty_length. rewrite Hp. apply Nat.div_str_pos.
      apply nonempty_length in Hx. lia. }
    exists y. split; [exact Hy | congruence].
  - intros ->. unfold HendrixLab.bitcrush, stride. cbn [bind]. eauto.
Qed.

Lemma bitcrush_length_witness :
  ((0 < 2)%nat ->
   exists y, HendrixLab.bitcrush [0.5; -0.25; 1] 8 2 = Ok y /\
             length y = ((length [0.5; -0.25; 1]%R + 2 - 1) / 2)%nat) /\
  (2%nat = 0%nat ->
   exists msg, HendrixLab.bitcrush [0.5; -0.25; 1] 8 2 = Raise (ValueError msg)).
Proof. apply (bitcrush_length [0.5; -0.25; 1] 8 2). discriminate. Defined.

(** ** The test tone *)

Lemma int_below_one (r : R) : r < 1 -> (int r <= 0)%Z.
Proof.
  intros H. unfold int. destruct (Rle_dec 0 r) as [P|N].
  - destruct (base_Int_part r) as [H1 _].
    assert (H2 : IZR (Int_part r) < 1) by lra. apply lt_IZR in H2. lia.
  - destruct (base_Int_part (- r)) as [_ H2].
    assert (H3 : -1 < IZR (Int_part (- r))) by lra. apply lt_IZR in H3. lia.
Qed.

Lemma int_from_one (r : R) : 1 <= r -> (1 <= int r)%Z.
Proof.
  intros H. destruct (int_floor r ltac:(lra)) as [_ H2].
  assert (H3 : 0 < IZR (int r)) by lra. apply lt_IZR in H3. lia.
Qed.

(** X19: [guitarish_note] returns [int(SR*dur)] samples when that is at least
    one: a tone that starts at exactly 0 (its attack envelope is 0 at
    [t = 0]) and whose peak is at most 1. *)
Theorem guitarish_note_shape (freq dur : R) :
  1 <= SR * dur ->
  exists y,
    ChainHendrix.guitarish_note freq dur = Ok y /\
    Z.of_nat (length y) = int (SR * dur) /\
    nth 0 y 0 = 0 /\
    peak_le 1 y.
Proof.
  intros Hdur. pose proof (int_from_one _ Hdur) as HN.
  unfold ChainHendrix.guitarish_note, linspace.
  replace (int (SR * dur) <? 0)%Z with false by (symmetry; apply Z.ltb_ge; lia).
  cbn [bind].
  set (N := Z.to_nat (int (SR * dur))).
  set (t := map _ (seq 0 N)).
  assert (Ht : length t = N) by (unfold t; now rewrite length_map, length_seq).
  assert (HNpos : (0 < N)%nat) by (unfold N; lia).
  set (pre := map2 _ _ _).
  assert (Hpre : length pre = N)
    by (unfold pre; rewrite length_map2, !length_map, Ht; lia).
  assert (Hpre0 : nth 0 pre 0 = 0).
  { unfold pre. rewrite nth_map2_in by (rewrite length_map, Ht; lia).
    rewrite (nth_map_in _ t 0) by lia.
    rewrite (nth_map_in (fun t0 => 1 - exp (- t0 * 50)) t 0) by lia.
    assert (Ht0 : nth 0 t 0 = 0).
    { unfold t. rewrite nth_nat_map_in by (rewrite length_seq; lia).
      rewrite seq_nth by lia. cbn [Nat.add INR]. lra. }
    rewrite Ht0. replace (- 0 * 50) with 0 by lra. rewrite exp_0. lra. }
  destruct (max_abs_ok pre) as [m Hm].
  { apply nonempty_length. lia. }
  destruct (norm_peak pre) as (y & Hy & Hlen & Hpeak).
  { apply nonempty_length. lia. }
  exists y. split; [exact Hy|]. split; [rewrite Hlen, Hpre; unfold N; lia|].
  split; [|exact Hpeak].
  unfold ChainHendrix.norm in Hy. rewrite Hm in Hy. cbn [bind] in Hy.
  injection Hy as <-. rewrite nth_map_in by lia. rewrite Hpre0.
  unfold Rdiv. apply Rmult_0_l.
Qed.

Lemma guitarish_note_shape_witness :
  exists y,
    ChainHendrix.guitarish_note 220 4 = Ok y /\
    Z.of_nat (length y) = int (SR * 4) /\
    nth 0 y 0 = 0 /\
    peak_le 1 y.
Proof. apply (guitarish_note_shape 220 4). unfold SR. lra. Defined.

(** X20: a duration below one sample period gives no tone but a [ValueError]:
    from [np.linspace] when the sample count is negative, from [norm] when
    it is 0. *)
Theorem guitarish_note_too_short (freq dur : R) :
  SR * dur < 1 ->
  exists msg, ChainHendrix.guitarish_note freq dur = Raise (ValueError msg).
Proof.
  intros Hdur. pose proof (int_below_one _ Hdur) as HN.
  unfold ChainHendrix.guitarish_note, linspace.
  destruct (int (SR * dur) <? 0)%Z eqn:E; cbn [bind]; [eauto|].
  apply Z.ltb_ge in E.
  replace (Z.to_nat (int (SR * dur))) with 0%nat by lia.
  cbn. eauto.
Qed.

Lemma guitarish_note_too_short_witness :
  exists msg, ChainHendrix.guitarish_note 220 0 = Raise (ValueError msg).
Proof. apply (guitarish_note_too_short 220 0). unfold SR. lra. Defined.

(** ** Whole runs of the chain *)

Lemma tape_echo_empty (delay_ms fb hf : R) :
  (0 <= EchoIr.delay_samples delay_ms)%Z ->
  EchoIr.tape_echo [] delay_ms fb hf = Ok [].
Proof.
  intros Hd.
  destruct (tape_echo_nat [] delay_ms fb hf
              (Z.to_nat (EchoIr.delay_samples delay_ms)) ltac:(lia))
    as (y & Hrun & Hlen & _).
  rewrite Hrun. destruct y; [reflexivity | discriminate].
Qed.

Lemma registry_rejects_empty (sos : Type) (butter_design : nat -> R -> R -> sos)
    (sosfilt : sos -> array -> array) (ef : string) (f : array -> result array) :
  ChainHendrix.lookup ef (ChainHendrix.EFFECTS sos butter_design sosfilt) = Some f ->
  exists msg, f [] = Raise (ValueError msg).
Proof.
  intros H. apply registry_cases in H.
  destruct H as [->|[->|[->|[->|[->| ->]]]]]; try (cbn; eauto; fail).
  - unfold ChainHendrix.fuzz. rewrite lp_pre_emphasis_runs by lra. cbn. eauto.
  - unfold ChainHendrix.tape_echo.
    rewrite tape_echo_empty by (rewrite delay_samples_default; lia).
    cbn. eauto.
Qed.

(** X21: every effect of the registry keeps the number of samples: on a buffer
    that is not empty it returns a buffer of the same length, peak at most
    1. [sosfilt] is any filter routine that returns as many samples as it is
    given. *)
Theorem registry_effects_keep_length (sos : Type) (butter_design : nat -> R -> R -> sos)
    (sosfilt : sos -> array -> array) (ef : string) (f : array -> result array)
    (x : array) :
  (forall flt seg, length (sosfilt flt seg) = length seg) ->
  x <> [] ->
  ChainHendrix.lookup ef (ChainHendrix.EFFECTS sos butter_design sosfilt) = Some f ->
  exists y, f x = Ok y /\ length y = length x /\ peak_le 1 y.
Proof.
  intros Hlen Hx Hf.
  exact (registry_shaped sos butter_design sosfilt Hlen ef f x Hx Hf).
Qed.

Lemma registry_effects_keep_length_witness :
  exists y,
    ChainHendrix.wah_auto unit (fun _ _ _ => tt) (fun _ seg => seg)
      [1; -2] 350 2000 1.2 2.5 = Ok y /\
    length y = length [1; -2] /\ peak_le 1 y.
Proof.
  apply (registry_effects_keep_length unit (fun _ _ _ => tt) (fun _ seg => seg)
           "wah" (fun x => ChainHendrix.wah_auto unit (fun _ _ _ => tt)
                             (fun _ seg => seg) x 350 2000 1.2 2.5) [1; -2]).
  - intros flt seg. reflexivity.
  - discriminate.
  - reflexivity.
Defined.

(** X22: every effect of the registry answers an empty buffer with the
    [ValueError] of [np.max] in [norm], whatever the filter routines are. *)
Theorem registry_effects_reject_empty (sos : Type) (butter_design : nat -> R -> R -> sos)
    (sosfilt : sos -> array -> array) (ef : string) (f : array -> result array) :
  ChainHendrix.lookup ef (ChainHendrix.EFFECTS sos butter_design sosfilt) = Some f ->
  exists msg, f [] = Raise (ValueError msg).
Proof.
  intros H. apply registry_cases in H.
  destruct H as [->|[->|[->|[->|[->| ->]]]]]; try (cbn; eauto; fail).
  - unfold ChainHendrix.fuzz. rewrite lp_pre_emphasis_runs by lra. cbn. eauto.
  - unfold ChainHendrix.tape_echo.
    rewrite tape_echo_empty by (rewrite delay_samples_default; lia).
    cbn. eauto.
Qed.

Lemma registry_effects_reject_empty_witness :
  exists msg, ChainHendrix.univibe [] 4 0.9 = Raise (ValueError msg).
Proof.
  apply (registry_effects_reject_empty unit (fun _ _ _ => tt) (fun _ seg => seg)
           "univibe" (fun x => ChainHendrix.univibe x 4 0.9)).
  reflexivity.
Defined.

Lemma save_wav_empty (p : path) (log : list event) :
  exists log' e,
    ChainHendrix.save_wav p [] log = (log', Raise e) /\
    written log' = written log /\
    (dirname p <> EmptyString -> exists msg, e = ValueError msg).
Proof.
  unfold ChainHendrix.save_wav, io_bind.
  destruct (dirname p) as [|c d] eqn:E.
  - cbn. eexists _, _. split; [reflexivity|]. split; [reflexivity | congruence].
  - cbn. eexists _, _. split; [reflexivity|].
    rewrite written_app. cbn. rewrite app_nil_r. eauto.
Qed.

(** X23: [main] writes no audio file for an empty signal: whatever the
    stems option and the registered filters, the run ends in an exception
    and [sf.write] is never reached; for every chain that names at least
    one effect, as every chain of the command line does, the exception is
    a [ValueError]. *)
Theorem main_rejects_empty_signal (sos : Type) (butter_design : nat -> R -> R -> sos)
    (sosfilt : sos -> array -> array) (a : ChainHendrix.args) (log : list event) :
  exists log' e,
    ChainHendrix.main sos butter_design sosfilt a [] log = (log', Raise e) /\
    written log' = written log /\
    (ChainHendrix.chain a <> [] -> exists msg, e = ValueError msg).
Proof.
  unfold ChainHendrix.main, ChainHendrix.save_clean.
  destruct (ChainHendrix.stems_folder a) as [dir|] eqn:Es.
  - pose proof (stems_folder_named a dir Es) as Hdir.
    unfold io_bind at 1 2. rewrite (makedirs_runs _ _ Hdir).
    destruct (save_wav_empty (join dir "00_clean.wav") (log ++ [Makedirs dir]))
      as (log' & e & -> & Hw & He).
    exists log', e. split; [reflexivity|].
    split; [|intros _; apply He, Hdir].
    rewrite Hw, written_app. cbn. now rewrite app_nil_r.
  - destruct (ChainHendrix.chain a) as [|ef efs].
    + cbn [ChainHendrix.chain_loop]. unfold io_bind, ret.
      destruct (save_wav_empty (ChainHendrix.out a) log) as (log' & e & -> & Hw & _).
      exists log', e. split; [reflexivity|]. split; [exact Hw | congruence].
    + cbn [ChainHendrix.chain_loop].
      destruct (ChainHendrix.lookup ef (ChainHendrix.EFFECTS sos butter_design sosfilt))
        as [f|] eqn:Ef.
      * destruct (registry_rejects_empty sos butter_design sosfilt ef f Ef) as [msg Hf].
        unfold io_bind, emit, lift, ret. rewrite Hf.
        eexists _, _. split; [reflexivity|].
        split; [|eauto].
        rewrite written_app. cbn. now rewrite app_nil_r.
      * unfold io_bind, lift, ret. eexists _, _. split; [reflexivity|]. eauto.
Qed.

Lemma main_rejects_empty_signal_witness :
  exists log' msg,
    ChainHendrix.main unit (fun _ _ _ => tt) (fun _ seg => seg)
      args_with_unknown [] [] = (log', Raise (ValueError msg)) /\
    written log' = written [].
Proof.
  destruct (main_rejects_empty_signal unit (fun _ _ _ => tt) (fun _ seg => seg)
              args_with_unknown []) as (log' & e & Hrun & Hw & He).
  destruct He as [msg ->]; [discriminate|]. eauto.
Defined.

(** X24: a chain of registered names on a signal that is not empty, with an
    output path that has a directory part, runs to its end: every effect is
    applied, in the order of the chain; the files written are the clean stem
    and one stem for each position when a stems folder is given, and then
    the final output, which is the last thing the run does; the buffer
    written there has the length of the input and a peak of at most 1.
    Without a directory part in [--out] the run ends in the
    [FileNotFoundError] of [os.makedirs], the final output unwritten. *)
Theorem main_completes (sos : Type) (butter_design : nat -> R -> R -> sos)
    (sosfilt : sos -> array -> array) (a : ChainHendrix.args) (x : array)
    (log : list event) :
  (forall flt seg, length (sosfilt flt seg) = length seg) ->
  x <> [] ->
  Forall (fun ef => ChainHendrix.lookup ef (ChainHendrix.EFFECTS sos butter_design sosfilt)
                    <> None) (ChainHendrix.chain a) ->
  (dirname (ChainHendrix.out a) <> EmptyString ->
   exists log0 data,
     ChainHendrix.main sos butter_design sosfilt a x log
       = (log0 ++ [SfWrite (ChainHendrix.out a) data], Ok tt) /\
     length data = length x /\
     peak_le 1 data /\
     applied log0 = (applied log ++ ChainHendrix.chain a)%list /\
     written log0 =
       (written log ++ clean_path a ++ stem_paths a 1 (ChainHendrix.chain a))%list) /\
  (dirname (ChainHendrix.out a) = EmptyString ->
   exists log',
     ChainHendrix.main sos butter_design sosfilt a x log
       = (log', Raise FileNotFoundError) /\
     applied log' = (applied log ++ ChainHendrix.chain a)%list /\
     written log' =
       (written log ++ clean_path a ++ stem_paths a 1 (ChainHendrix.chain a))%list).
Proof.
  intros Hlen Hx Hreg.
  destruct (save_clean_runs a x log Hx) as (log1 & Hc & Ha1 & Hw1).
  destruct (chain_loop_runs sos butter_design sosfilt Hlen a x Hx (ChainHendrix.chain a)
              1 x log1 eq_refl Hreg)
    as (log2 & cur & Hrun & Hcur & _ & Ha2 & Hw2).
  assert (Hmain : ChainHendrix.main sos butter_design sosfilt a x log
                  = ChainHendrix.save_wav (ChainHendrix.out a) cur log2).
  { unfold ChainHendrix.main, io_bind. now rewrite Hc, Hrun. }
  rewrite Hmain. split; intros Hout.
  - destruct (save_wav_runs (ChainHendrix.out a) cur log2 Hout)
      as (data & Hsave & _ & Hl & Hp).
    { apply nonempty_length. apply nonempty_length in Hx. lia. }
    rewrite Hsave.
    exists (log2 ++ [Makedirs (dirname (ChainHendrix.out a))]), data.
    split; [now rewrite <- app_assoc|].
    split; [congruence|]. split; [exact Hp|].
    rewrite applied_app, written_app, Ha2, Hw2, Ha1, Hw1. cbn.
    rewrite !app_nil_r, <- !app_assoc. auto.
  - unfold ChainHendrix.save_wav, io_bind. rewrite Hout. cbn.
    exists log2. split; [reflexivity|].
    rewrite Ha2, Hw2, Ha1, Hw1, <- !app_assoc. auto.
Qed.

Lemma main_completes_witness :
  exists log0 data,
    ChainHendrix.main unit (fun _ _ _ => tt) (fun _ seg => seg)
      {| ChainHendrix.chain := ["octavia"; "tape"]%string;
         ChainHendrix.out := join "out" "final.wav";
         ChainHendrix.stems := Some "stems"%string |} [1; -2] []
      = (log0 ++ [SfWrite (join "out" "final.wav") data], Ok tt) /\
    length data = length [1; -2] /\
    peak_le 1 data /\
    applied log0 = (applied [] ++ ["octavia"; "tape"]%string)%list /\
    written log0 =
      (written [] ++
       [join "stems" "00_clean.wav"; join "stems" "01_octavia.wav";
        join "stems" "02_tape.wav"])%list.
Proof.
  apply (main_completes unit (fun _ _ _ => tt) (fun _ seg => seg)
           {| ChainHendrix.chain := ["octavia"; "tape"]%string;
              ChainHendrix.out := join "out" "final.wav";
              ChainHendrix.stems := Some "stems"%string |} [1; -2] []).
  - intros flt seg. reflexivity.
  - discriminate.
  - repeat constructor; discriminate.
  - discriminate.
Defined.

(** ** The names of the stems *)

Lemma digits_no_underscore (d : Decimal.uint) :
  no_underscore (NilEmpty.string_of_uint d).
Proof.
  induction d; cbn [NilEmpty.string_of_uint no_underscore];
    try exact I; (split; [discriminate | assumption]).
Qed.

Lemma split_at_underscore (s1 s2 r1 r2 : string) :
  no_underscore s1 -> no_underscore s2 ->
  (s1 ++ String "_" r1)%string = (s2 ++ String "_" r2)%string -> s1 = s2.
Proof.
  revert s2. induction s1 as [|c s1 IH]; intros [|c2 s2] H1 H2 E;
    cbn in *.
  - reflexivity.
  - injection E as E _. destruct H2 as [H2 _]. congruence.
  - injection E as E _. destruct H1 as [H1 _]. congruence.
  - injection E as -> E. f_equal. apply IH; tauto.
Qed.

Lemma decimal_inj (i j : nat) :
  NilEmpty.string_of_uint (Nat.to_uint i) = NilEmpty.string_of_uint (Nat.to_uint j) ->
  i = j.
Proof.
  intros H. apply (f_equal NilEmpty.uint_of_string) in H.
  rewrite !NilEmpty.usu in H. injection H as H.
  apply (f_equal Nat.of_uint) in H. now rewrite !Unsigned.of_to in H.
Qed.

Lemma padded_is_small (i j : nat) :
  (i < 10)%nat ->
  String "0" (NilEmpty.string_of_uint (Nat.to_uint i))
    = NilEmpty.string_of_uint (Nat.to_uint j) ->
  (j < 10)%nat.
Proof.
  intros Hi H.
  assert (E : NilEmpty.uint_of_string
                (String "0" (NilEmpty.string_of_uint (Nat.to_uint i)))
              = Some (Nat.to_uint j)) by (rewrite H; apply NilEmpty.usu).
  assert (Hj : exists k, (k < 10)%nat /\ Nat.to_uint j = Nat.to_uint k \/
                         exists d, Nat.to_uint j = Decimal.D0 d /\
                                   Nat.of_uint (Decimal.D0 d) = k /\ (k < 10)%nat).
  { do 10 (destruct i as [|i];
           [vm_compute in E; injection E as E; eexists; right; eexists;
            split; [symmetry; exact E | split; [reflexivity | vm_compute; lia]]|]).
    lia. }
  destruct Hj as [k [[Hk E2]|(d & E2 & E3 & Hk)]].
  - apply (f_equal Nat.of_uint) in E2. rewrite !Unsigned.of_to in E2. lia.
  - apply (f_equal Nat.of_uint) in E2. rewrite Unsigned.of_to in E2. lia.
Qed.

Lemma two_digits_inj (i j : nat) :
  ChainHendrix.two_digits i = ChainHendrix.two_digits j -> i = j.
Proof.
  unfold ChainHendrix.two_digits.
  destruct (i <? 10)%nat eqn:Ei, (j <? 10)%nat eqn:Ej; intros H; nat_tests.
  - injection H as H. now apply decimal_inj.
  - pose proof (padded_is_small i j Ei H). lia.
  - symmetry in H. pose proof (padded_is_small j i Ej H). lia.
  - now apply decimal_inj.
Qed.

Lemma two_digits_no_underscore (i : nat) :
  no_underscore (ChainHendrix.two_digits i).
Proof.
  unfold ChainHendrix.two_digits. destruct (i <? 10)%nat.
  - split; [discriminate | apply digits_no_underscore].
  - apply digits_no_underscore.
Qed.

Lemma stem_name_inj (i j : nat) (ef ef' : string) :
  ChainHendrix.stem_name i ef = ChainHendrix.stem_name j ef' -> i = j.
Proof.
  unfold ChainHendrix.stem_name. intros H.
  apply two_digits_inj.
  apply (split_at_underscore _ _ (ef ++ ".wav") (ef' ++ ".wav"));
    auto using two_digits_no_underscore.
Qed.

Lemma stems_distinct (dir : string) (efs : list string) :
  forall i,
    NoDup (map (fun p => join dir (ChainHendrix.stem_name (fst p) (snd p)))
               (combine (seq i (length efs)) efs)).
Proof.
  induction efs as [|ef efs IH]; intros i; [constructor|].
  cbn [length seq combine map]. constructor; [|apply IH].
  intros Hin. apply in_map_iff in Hin. destruct Hin as ([k e] & Hk & Hin).
  apply in_combine_l, in_seq in Hin. cbn [fst snd] in Hk.
  injection Hk as Hk. apply stem_name_inj in Hk. lia.
Qed.

(** X25: no stem overwrites another: the file names that one run writes into the
    stems folder, the clean signal and one for each position of the chain,
    are pairwise different, however long the chain is and even when it
    names an effect more than once. *)
Theorem stems_never_collide (a : ChainHendrix.args) (efs : list string) :
  NoDup (clean_path a ++ stem_paths a 1 efs).
Proof.
  unfold clean_path, stem_paths.
  destruct (ChainHendrix.stems_folder a) as [dir|]; [|constructor].
  exact (stems_distinct dir ("clean"%string :: efs) 0).
Qed.

(** X5: the tape echo never looks ahead: the echo of the first [k] samples of a
    signal is the first [k] samples of its echo. *)
Theorem tape_echo_causal (x : array) (k : nat) (delay_ms feedback hf_loss : R) :
  (0 <= EchoIr.delay_samples delay_ms)%Z ->
  exists y,
    EchoIr.tape_echo x delay_ms feedback hf_loss = Ok y /\
    EchoIr.tape_echo (firstn k x) delay_ms feedback hf_loss = Ok (firstn k y).
Proof.
  intros Hd.
  remember (Z.to_nat (EchoIr.delay_samples delay_ms)) as d eqn:Hdn.
  assert (Hdz : EchoIr.delay_samples delay_ms = Z.of_nat d) by lia.
  destruct (tape_echo_comb x delay_ms feedback hf_loss d Hdz) as (y & Ry & Ly & Ny).
  destruct (tape_echo_comb (firstn k x) delay_ms feedback hf_loss d Hdz)
    as (z & Rz & Lz & Nz).
  exists y. split; [exact Ry|]. rewrite Rz. f_equal.
  rewrite length_firstn in Lz, Nz.
  apply array_ext; [rewrite length_firstn; lia|].
  rewrite Lz. intros n.
  induction n as [n IH] using (well_founded_induction lt_wf). intros Hn.
  rewrite (Nz n Hn), !nth_firstn.
  replace (n <? k)%nat with true by (symmetry; apply Nat.ltb_lt; lia).
  rewrite (Ny n ltac:(lia)).
  destruct ((1 <=? d) && (2 * d <=? n))%nat eqn:E; [|reflexivity].
  apply andb_true_iff in E. destruct E as [E1 E2]. nat_tests.
  rewrite (IH (n - d)%nat) by lia. rewrite nth_firstn.
  replace (n - d <? k)%nat with true by (symmetry; apply Nat.ltb_lt; lia).
  reflexivity.
Qed.

Lemma tape_echo_causal_witness :
  exists y,
    EchoIr.tape_echo [1; 0.5; 0.25; 2] (1 / 48) 0.6 0.75 = Ok y /\
    EchoIr.tape_echo (firstn 2 [1; 0.5; 0.25; 2]) (1 / 48) 0.6 0.75
      = Ok (firstn 2 y).
Proof.
  apply (tape_echo_causal [1; 0.5; 0.25; 2] 2 (1 / 48) 0.6 0.75).
  rewrite delay_samples_one. lia.
Defined.

(** ** Silence *)

Lemma slice_of_silence (n i m : nat) :
  slice (repeat 0 n) i m = repeat 0 (length (slice (repeat 0 n) i m)).
Proof.
  apply array_ext; [now rewrite repeat_length|].
  intros j Hj. rewrite nth_repeat_zero.
  rewrite length_slice in Hj. rewrite nth_slice by lia. apply nth_repeat_zero.
Qed.

Lemma allpass_silence (fc d : R) (n : nat) :
  ChainHendrix.allpass (repeat 0 n) fc d = repeat 0 n.
Proof.
  unfold ChainHendrix.allpass, ChainHendrix.allpass_out.
  rewrite allpass_loop_silence.
  induction n as [|n IH]; [reflexivity|].
  cbn [repeat map2]. rewrite IH. f_equal. ring.
Qed.

Lemma univibe_stage_silence (lfo : array) (depth base : R) (n : nat) :
  ChainHendrix.univibe_stage lfo depth (repeat 0 n) base = Ok (repeat 0 n).
Proof.
  destruct (univibe_stage_blockwise lfo depth (repeat 0 n) base)
    as (z & Hrun & Hlen & Hnth).
  rewrite Hrun. f_equal. apply array_ext; [exact Hlen|].
  rewrite Hlen. intros k Hk. rewrite (Hnth k Hk). unfold block_value.
  rewrite slice_of_silence, allpass_silence. now rewrite !nth_repeat_zero.
Qed.

Lemma map2_mult_silence (l : array) (n : nat) :
  length l = n -> map2 Rmult (repeat 0 n) l = repeat 0 n.
Proof.
  revert l. induction n as [|n IH]; intros [|v l] H; simpl in *;
    try discriminate; auto.
  rewrite IH by lia. f_equal. ring.
Qed.

Lemma norm_silence (n : nat) :
  (0 < n)%nat -> ChainHendrix.norm (repeat 0 n) = Ok (repeat 0 n).
Proof.
  intros H. rewrite norm_constant by exact H. do 2 f_equal.
  unfold Rdiv. apply Rmult_0_l.
Qed.

Lemma tanh_0 : tanh 0 = 0.
Proof. unfold tanh. rewrite sinh_0. unfold Rdiv. apply Rmult_0_l. Qed.

(** X26: silence in, silence out: the fuzz, the uni-vibe and the tape echo
    return a silent buffer for a silent one, for all their parameters;
    the octave-up effect does not. *)
Theorem silence_stays_silent (n : nat) :
  (0 < n)%nat ->
  (forall drive hard, ChainHendrix.fuzz (repeat 0 n) drive hard = Ok (repeat 0 n)) /\
  (forall rate_hz depth,
     ChainHendrix.univibe (repeat 0 n) rate_hz depth = Ok (repeat 0 n)) /\
  (forall delay_ms feedback hf_loss,
     (0 <= EchoIr.delay_samples delay_ms)%Z ->
     ChainHendrix.tape_echo (repeat 0 n) delay_ms feedback hf_loss
     = Ok (repeat 0 n)) /\
  ChainHendrix.octavia (repeat 0 n) <> Ok (repeat 0 n).
Proof.
  intros Hn. repeat split.
  - intros drive hard. unfold ChainHendrix.fuzz.
    rewrite (lp_pre_emphasis_at_rest 0 3500 n) by lra. cbn [bind].
    rewrite !map_repeat.
    rewrite Rmult_0_r, tanh_0.
    replace (clip (-0.6) 0.6 0) with 0
      by (unfold clip, Rmin, Rmax; repeat destruct Rle_dec; lra).
    replace (map2 _ (repeat 0 n) (repeat 0 n)) with (repeat 0 n).
    + now apply norm_silence.
    + clear Hn. induction n as [|n IH]; [reflexivity|].
      cbn [repeat map2]. rewrite <- IH. f_equal. ring.
  - intros rate_hz depth. unfold ChainHendrix.univibe. cbn [for_each].
    repeat (rewrite univibe_stage_silence; cbn [bind]).
    rewrite repeat_length, map2_mult_silence
      by (rewrite length_map, length_time_axis; reflexivity).
    now apply norm_silence.
  - intros delay_ms feedback hf_loss Hd. unfold ChainHendrix.tape_echo.
    rewrite (tape_echo_silent_tail _ delay_ms feedback hf_loss
               (Z.to_nat (EchoIr.delay_samples delay_ms)))
      by (lia || (intros; apply nth_repeat_zero)).
    cbn [bind]. now apply norm_silence.
  - unfold ChainHendrix.octavia. rewrite !map_repeat, Rabs_R0.
    replace (6 * (0 - 0.1)) with (-0.6) by lra.
    rewrite norm_constant by exact Hn.
    destruct n as [|n]; [lia|]. cbn [repeat]. intros H. injection H as H _.
    destruct tanh_minus_06_bounds as [H1 H2].
    rewrite (Rabs_left (tanh (-0.6))) in H by lra.
    assert (Hd : 0 < - tanh (-0.6) + 1e-12) by lra.
    assert (Hq : tanh (-0.6) / (- tanh (-0.6) + 1e-12) < 0)
      by (apply quotient_lt; lra).
    lra.
Qed.

Lemma silence_stays_silent_witness :
  ChainHendrix.univibe (repeat 0 300) 4 0.9 = Ok (repeat 0 300) /\
  ChainHendrix.octavia (repeat 0 300) <> Ok (repeat 0 300).
Proof.
  destruct (silence_stays_silent 300 ltac:(lia)) as (_ & Hu & _ & Ho).
  split; [apply Hu | exact Ho].
Defined.

(** ** The two fuzz functions *)

Lemma map2_ext (f g : R -> R -> R) (a b : array) :
  (forall u v, f u v = g u v) -> map2 f a b = map2 g a b.
Proof.
  intros H. revert b. induction a as [|x a IH]; intros [|y b]; simpl; auto.
  now rewrite H, IH.
Qed.

(** X27: [fuzz_face_like] of [hendrix_lab.py] is [fuzz] of
    [chain_hendrix.py] at its defaults, drive 8 and hard mix 0.45: the two
    files give the same fuzz for every input. *)
Theorem fuzz_face_like_is_default_fuzz (x : array) :
  HendrixLab.fuzz_face_like x = ChainHendrix.fuzz x 8 0.45.
Proof.
  unfold HendrixLab.fuzz_face_like, ChainHendrix.fuzz.
  rewrite lp_pre_emphasis_runs by lra. cbn [bind].
  cbv zeta. change HendrixLab.norm with ChainHendrix.norm. f_equal.
  apply map2_ext. intros u v. lra.
Qed.
